(** * Euler-67: the Triangle container, the bottom-up fold and the parser

    A shallow embedding of [euler67.cpp] and the properties of its
    specification.  The C++ code is translated function by function:

    - [int] is a 32-bit two's complement integer, carried by [Z] with the
      wrap-around of its addition written out ([int_add]);
    - [std::vector] is a [list], read with [!!] and overwritten in place
      with [<[i:=x]>]; an access outside the vector has no defined result
      in C++ and yields [Undefined] here;
    - a [throw] is the outcome [Throw], carrying the [std::invalid_argument]
      and its message;
    - member functions that mutate [*this] pass the object explicitly and
      return it next to their outcome. *)

From Stdlib Require Import ZArith Lia Bool Ascii String DecimalString DecimalPos.
From stdpp Require Import base option list.

Local Open Scope Z_scope.

(** ** Outcomes of a call *)

(** The only exception type of the program. *)
Inductive exception : Type :=
| invalid_argument (what : string).

(** A call returns, throws, or has no defined behaviour. *)
Inductive outcome (A : Type) : Type :=
| Return (a : A)
| Throw (e : exception)
| Undefined.

Arguments Return {A} a.
Arguments Throw {A} e.
Arguments Undefined {A}.

Definition bind {A B : Type} (m : outcome A) (k : A -> outcome B) : outcome B :=
  match m with
  | Return a => k a
  | Throw e => Throw e
  | Undefined => Undefined
  end.

Notation "x <- m ;; k" := (bind m (fun x => k))
  (at level 100, m at next level, right associativity).

(** The error thrown by [Triangle::append_row]. *)
Definition InvalidShape : exception :=
  invalid_argument
    ("Triangle::append_row requires that input row has a size equal" ++
     " to the height of the triangle plus one")%string.

(** The error thrown by [fold_triangle]. *)
Definition EmptyTriangle : exception :=
  invalid_argument "fold_triangle expects a non-empty triangle".

(** ** The type [int] *)

Definition INT_MIN : Z := - 2 ^ 31.
Definition INT_MAX : Z := 2 ^ 31 - 1.

Definition in_int_range (z : Z) : Prop := INT_MIN <= z <= INT_MAX.

(** Reduction of a mathematical integer to the [int] that has the same
    32 low bits. *)
Definition wrap_int (z : Z) : Z := (z + 2 ^ 31) mod 2 ^ 32 - 2 ^ 31.

(** [a + b] on [int].  An overflow of a signed addition has no defined
    behaviour in C++; the model takes the two's complement result that the
    machine addition leaves.  The statements about the values of the
    evaluators therefore either assume that the sums fit an [int] or compare
    two runs that perform the same additions; none asserts that a run whose
    sums overflow is well defined. *)
Definition int_add (a b : Z) : Z := wrap_int (a + b).

(** [std::max(a, b)], which is [(a < b) ? b : a]. *)
Definition std_max (a b : Z) : Z := if a <? b then b else a.

(** ** The class [Triangle] *)

(** [using Row = std::vector<int>]. *)
Abbreviation Row := (list Z).

Record Triangle : Type := mkTriangle { rows_ : list Row }.

(** The default constructor. *)
Definition empty_triangle : Triangle := {| rows_ := [] |}.

(** The class invariant: [rows_[i].length = i + 1]. *)
Definition shape_inv (t : Triangle) : Prop :=
  forall (i : nat) (row : Row), rows_ t !! i = Some row -> length row = S i.

Fixpoint shape_from (i : nat) (rs : list Row) : bool :=
  match rs with
  | [] => true
  | row :: rs' => Nat.eqb (length row) (S i) && shape_from (S i) rs'
  end.

(** The invariant as a test. *)
Definition shape_ok (t : Triangle) : bool := shape_from 0 (rows_ t).

Definition rows (this : Triangle) : list Row := rows_ this.

Definition height (this : Triangle) : nat := length (rows_ this).

Definition width (this : Triangle) : nat := height this.

(** [at(row, n) const]: [rows_[row][n]]. *)
Definition at_ (this : Triangle) (row n : nat) : outcome Z :=
  match rows_ this !! row with
  | Some r =>
      match r !! n with
      | Some v => Return v
      | None => Undefined
      end
  | None => Undefined
  end.

(** An assignment [t.at(row, n) = v] through the reference returned by the
    non-const [at]. *)
Definition at_assign (row n : nat) (v : Z) (this : Triangle)
  : outcome unit * Triangle :=
  match rows_ this !! row with
  | Some r =>
      match r !! n with
      | Some _ => (Return tt, {| rows_ := <[row := <[n := v]> r]> (rows_ this) |})
      | None => (Undefined, this)
      end
  | None => (Undefined, this)
  end.

(** [append_row(row)].  Sizes are [size_t]; a vector cannot hold
    [2^64 - 1] rows, so [height() + 1] does not wrap. *)
Definition append_row (row : Row) (this : Triangle) : outcome unit * Triangle :=
  if negb (Nat.eqb (length row) (height this + 1)) then
    (Throw InvalidShape, this)
  else
    (Return tt, {| rows_ := rows_ this ++ [row] |}).

(** ** [fold_triangle] *)

Section fold_triangle.
Context {T : Type}.
Variable make_t : Z -> T.
Variable combine_t : Z -> T -> T -> T.

(** The inner [for] loop over one row: [n] iterations remain, [i] is the
    loop index, which is also the position of [accum_iter]. *)
Fixpoint combine_row (n : nat) (row : Row) (i : nat) (accum : list T)
  : outcome (list T) :=
  match n with
  | O => Return accum
  | S n' =>
      match row !! i, accum !! i, accum !! S i with
      | Some value, Some below_left, Some below_right =>
          combine_row n' row (S i)
            (<[i := combine_t value below_left below_right]> accum)
      | _, _, _ => Undefined
      end
  end.

(** The [while] loop over the rows above the bottom one, from the bottom
    up: [uppers] is what the reverse iterator has still to visit. *)
Fixpoint climb (uppers : list Row) (accum : list T) : outcome (list T) :=
  match uppers with
  | [] => Return accum
  | row :: uppers' =>
      accum' <- combine_row (length row) row 0 accum ;;
      climb uppers' accum'
  end.

Definition fold_triangle (triangle : Triangle) : outcome T :=
  if Nat.eqb (height triangle) 0 then Throw EmptyTriangle
  else
    match reverse (rows triangle) with
    | [] => Undefined
    | bottom :: uppers =>
        accum <- climb uppers (make_t <$> bottom) ;;
        match accum with
        | [] => Undefined
        | front :: _ => Return front
        end
    end.
End fold_triangle.

(** ** The two evaluators *)

Definition max_path (triangle : Triangle) : outcome Z :=
  let leaf := fun i : Z => i in
  let combine := fun i left right : Z => int_add i (std_max left right) in
  fold_triangle leaf combine triangle.

(** [n % 2 == 0]; [%] truncates towards zero. *)
Definition is_even (n : Z) : bool := Z.rem n 2 =? 0.

Definition max_odd_even_path (triangle : Triangle) : outcome Z :=
  let leaf := fun i : Z => i in
  let combine := fun i left right : Z =>
    int_add i (std_max (if is_even left then 0 else left)
                       (if is_even right then right else 0)) in
  fold_triangle leaf combine triangle.

(** ** [parse_triangle] *)

Local Open Scope string_scope.

Definition newline : ascii := ascii_of_nat 10.

(** [std::getline(stream, row_string)]: the characters up to the next
    newline, which is consumed and dropped, or up to the end of the stream.
    It fails ([None]) when nothing is left to read.  The second component
    is what remains in the stream. *)
Fixpoint getline (stream : string) : option (string * string) :=
  match stream with
  | EmptyString => None
  | String c stream' =>
      if Ascii.eqb c newline then Some (EmptyString, stream')
      else
        match getline stream' with
        | Some (row_string, rest) => Some (String c row_string, rest)
        | None => Some (String c EmptyString, EmptyString)
        end
  end.

(** [std::isspace] in the classic locale: space and the controls 9 to 13. *)
Definition isspace (c : ascii) : bool :=
  let n := nat_of_ascii c in
  Nat.eqb n 32 || (Nat.leb 9 n && Nat.leb n 13).

Definition isdigit (c : ascii) : bool :=
  let n := nat_of_ascii c in
  Nat.leb 48 n && Nat.leb n 57.

Definition digit_value (c : ascii) : Z := Z.of_nat (nat_of_ascii c) - 48.

(** The whitespace skipped before a formatted extraction. *)
Fixpoint skipws (s : string) : string :=
  match s with
  | EmptyString => s
  | String c s' => if isspace c then skipws s' else s
  end.

(** The run of decimal digits in front of [s], accumulated onto [acc]. *)
Fixpoint read_digits (s : string) (acc : Z) : Z * string :=
  match s with
  | EmptyString => (acc, s)
  | String c s' =>
      if isdigit c then read_digits s' (10 * acc + digit_value c) else (acc, s)
  end.

(** [row_stream >> value] for an [int]: skip whitespace, then an optional
    sign and at least one decimal digit.  The extraction fails when there is
    no digit and when the number does not fit an [int]. *)
Definition extract_int (row_stream : string) : option (Z * string) :=
  let s := skipws row_stream in
  let '(negative, s) :=
    match s with
    | String "-" s' => (true, s')
    | String "+" s' => (false, s')
    | _ => (false, s)
    end in
  match s with
  | EmptyString => None
  | String c _ =>
      if isdigit c then
        let '(magnitude, rest) := read_digits s 0 in
        let value := if negative then - magnitude else magnitude in
        if (INT_MIN <=? value)%Z && (value <=? INT_MAX)%Z
        then Some (value, rest) else None
      else None
  end.

(** [while (row_stream >> value) row.push_back(value);].  Every successful
    extraction consumes a character, so the length of the stream bounds the
    number of iterations: [fuel] is never the reason the loop stops. *)
Fixpoint read_values (fuel : nat) (row_stream : string) (row : Row) : Row :=
  match fuel with
  | O => row
  | S fuel' =>
      match extract_int row_stream with
      | Some (value, rest) => read_values fuel' rest (row ++ [value])%list
      | None => row
      end
  end.

(** The values one line yields. *)
Definition read_row (row_string : string) : Row :=
  read_values (String.length row_string) row_string [].

(** [while (std::getline(stream, row_string)) { ... }].  Every [getline]
    that succeeds consumes a character; [fuel] is the length of the
    stream. *)
Fixpoint parse_loop (fuel : nat) (stream : string) (expected_row_size : nat)
    (triangle : Triangle) : outcome Triangle :=
  match fuel with
  | O => Return triangle
  | S fuel' =>
      match getline stream with
      | None => Return triangle
      | Some (row_string, stream') =>
          let expected_row_size := S expected_row_size in
          let row := read_row row_string in
          match append_row row triangle with
          | (Return _, triangle') =>
              parse_loop fuel' stream' expected_row_size triangle'
          | (Throw e, _) => Throw e
          | (Undefined, _) => Undefined
          end
      end
  end.

Definition parse_triangle (stream : string) : outcome Triangle :=
  parse_loop (String.length stream) stream 0 empty_triangle.

(** The lines of a stream, as successive calls of [getline] deliver them
    (see [stream_lines_getline]). *)
Fixpoint stream_lines (stream : string) : list string :=
  match stream with
  | EmptyString => []
  | String c stream' =>
      if Ascii.eqb c newline then EmptyString :: stream_lines stream'
      else
        match stream_lines stream' with
        | line :: lines => String c line :: lines
        | [] => [String c EmptyString]
        end
  end.

(** The rows of the lines appended one after the other, as the loop of
    [parse_triangle] does (see [parse_loop_lines]). *)
Fixpoint append_rows (rs : list Row) (triangle : Triangle) : outcome Triangle :=
  match rs with
  | [] => Return triangle
  | row :: rs' =>
      match append_row row triangle with
      | (Return _, triangle') => append_rows rs' triangle'
      | (Throw e, _) => Throw e
      | (Undefined, _) => Undefined
      end
  end.

(** ** [main] *)

Definition filepath : string := "p067_triangle.txt".

Definition endl : string := String newline EmptyString.

(** What a run that returns from [main] leaves behind. *)
Record exit : Type := mkExit {
  status : Z;
  cout : string;
  cerr : string
}.

Definition show_size (n : nat) : string :=
  NilZero.string_of_uint (Nat.to_uint n).

Definition show_int (z : Z) : string :=
  NilZero.string_of_int (Z.to_int z).

(** [main], given the contents of the file when it can be opened.  An
    exception that leaves [main] is the outcome [Throw]; the three values
    of the output statement are computed before the text is assembled, so
    the text a run has already written when it throws is not kept. *)
Definition main (file : option string) : outcome exit :=
  match file with
  | None =>
      Return {| status := 1; cout := "";
                cerr := "Failed to open " ++ filepath ++ endl |}
  | Some stream =>
      triangle <- parse_triangle stream ;;
      path <- max_path triangle ;;
      odd_even <- max_odd_even_path triangle ;;
      Return {| status := 0;
                cout := "Loaded triangle with " ++ show_size (height triangle)
                        ++ " rows. " ++ endl
                        ++ "The maximum path value is " ++ show_int path
                        ++ "." ++ endl
                        ++ "If you may only move left onto an odd number or right onto an even"
                        ++ " number, the" ++ endl ++ "maximum path value is "
                        ++ show_int odd_even ++ "." ++ endl;
                cerr := "" |}
  end.

Local Close Scope string_scope.

(** ** Sequences of operations on a Triangle *)

(** What a user of the class can do to an object: append a row, or assign
    an element through the non-const [at]. *)
Inductive operation : Type :=
| AppendRow (row : Row)
| Assign (row n : nat) (v : Z).

Definition apply_op (o : operation) (this : Triangle) : outcome unit * Triangle :=
  match o with
  | AppendRow row => append_row row this
  | Assign row n v => at_assign row n v this
  end.

(** The object after a sequence of operations, the caller catching the
    exception of every rejected [append_row].  There is no such object
    ([None]) once an operation had no defined behaviour. *)
Fixpoint run_ops (ops : list operation) (this : Triangle) : option Triangle :=
  match ops with
  | [] => Some this
  | o :: ops' =>
      match apply_op o this with
      | (Undefined, _) => None
      | (_, this') => run_ops ops' this'
      end
  end.

(** ** The recurrence of the specification *)

Section recurrence.
Context {T : Type}.
Variable make_leaf : Z -> T.
Variable combine : Z -> T -> T -> T.

(** [combine(row[i], old_accum[i], old_accum[i+1])]. *)
Definition recurrence_entry (row : Row) (old_accum : list T) (i : nat)
  : option T :=
  v ← row !! i; l ← old_accum !! i; r ← old_accum !! S i;
  Some (combine v l r).

(** The accumulator of a row: one entry for each position of the row. *)
Definition recurrence_step (row : Row) (old_accum : list T)
  : option (list T) :=
  mapM (recurrence_entry row old_accum) (seq 0 (length row)).

(** The rows above the bottom one, in decreasing row order. *)
Fixpoint recurrence_rows (uppers : list Row) (accum : list T)
  : option (list T) :=
  match uppers with
  | [] => Some accum
  | row :: uppers' =>
      accum' ← recurrence_step row accum; recurrence_rows uppers' accum'
  end.

Definition fold_recurrence (t : Triangle) : option T :=
  match reverse (rows_ t) with
  | [] => None
  | bottom :: uppers =>
      accum ← recurrence_rows uppers (make_leaf <$> bottom); head accum
  end.

(** The same step, by recursion on the row. *)
Fixpoint fresh_row (row : Row) (old_accum : list T) : list T :=
  match row, old_accum with
  | v :: row', l :: old' =>
      match old' with
      | r :: _ => combine v l r :: fresh_row row' old'
      | [] => []
      end
  | _, _ => []
  end.

(** The accumulator after the rows [uppers], taken in decreasing order. *)
Definition fresh_rows (uppers : list Row) (accum : list T) : list T :=
  fold_left (fun acc row => fresh_row row acc) uppers accum.

(** The accumulator of the first of the rows [rs], which are listed from
    the top down and end with the bottom row. *)
Fixpoint accum_from (rs : list Row) : list T :=
  match rs with
  | [] => []
  | row :: rs' =>
      match rs' with
      | [] => make_leaf <$> row
      | _ :: _ => fresh_row row (accum_from rs')
      end
  end.
End recurrence.

(** The sum of an entry and the greater of the two sums below it, as
    mathematical integers. *)
Definition ideal_combine (v l r : Z) : Z := v + Z.max l r.

(** The functions the specification gives for [max_odd_even_path]. *)
Definition spec_leaf (v : Z) : Z := v.

Definition spec_odd_even_combine (v l r : Z) : Z :=
  int_add v (Z.max (if Z.even l then 0 else l) (if Z.even r then r else 0)).

(** The combining function of the specification with its sum taken in
    the mathematical integers. *)
Definition math_odd_even_combine (v l r : Z) : Z :=
  v + Z.max (if Z.even l then 0 else l) (if Z.even r then r else 0).

(** What a left child and a right child contribute. *)
Definition left_contribution (l : Z) : Z := if Z.odd l then l else 0.
Definition right_contribution (r : Z) : Z := if Z.even r then r else 0.

(** ** Paths *)

(** A path is the list of the columns it visits, one for each row from the
    top down.  From column [c] it moves to column [c] or [c + 1] of the row
    below. *)
Fixpoint steps_ok (c : nat) (below : list nat) : bool :=
  match below with
  | [] => true
  | c' :: below' => (Nat.eqb c' c || Nat.eqb c' (S c)) && steps_ok c' below'
  end.

(** The paths from the apex to the base. *)
Definition is_path (t : Triangle) (cols : list nat) : bool :=
  match cols with
  | [] => false
  | c :: below =>
      Nat.eqb c 0 && steps_ok c below && Nat.eqb (length cols) (height t)
  end.

(** The sum of the entries of the rows [rs] at the columns [cols]. *)
Fixpoint path_sum (rs : list Row) (cols : list nat) : Z :=
  match rs, cols with
  | row :: rs', c :: cols' => default 0 (row !! c) + path_sum rs' cols'
  | _, _ => 0
  end.

(** [m] is the greatest sum over the paths from the apex to the base. *)
Definition greatest_path_sum (t : Triangle) (m : Z) : Prop :=
  (exists cols, is_path t cols = true /\ path_sum (rows_ t) cols = m) /\
  (forall cols, is_path t cols = true -> path_sum (rows_ t) cols <= m).

(** [m] is the greatest sum over the paths that start at column [p] of
    the first of the rows [rs] and end in the last of them. *)
Definition greatest_from (rs : list Row) (p : nat) (m : Z) : Prop :=
  (exists below : list nat,
      steps_ok p below = true /\ S (length below) = length rs
      /\ path_sum rs (p :: below) = m) /\
  (forall below : list nat,
      steps_ok p below = true -> S (length below) = length rs ->
      path_sum rs (p :: below) <= m).

(** For every entry of the triangle, the greatest sum over the paths from
    that entry down to the bottom row is an [int]. *)
Definition sums_fit_int (t : Triangle) : Prop :=
  forall (r p : nat) (m : Z),
    (p <= r)%nat -> (r < height t)%nat ->
    greatest_from (drop r (rows_ t)) p m ->
    in_int_range m.

(** The rows from row [k] of a Triangle on: each has one entry more than
    the row before. *)
Definition tapers (k : nat) (rs : list Row) : Prop :=
  forall (i : nat) (row : Row), rs !! i = Some row -> length row = S (k + i).

(** [sums_fit_int] for the rows [rs], the first of which is row [k]. *)
Definition sums_fit (k : nat) (rs : list Row) : Prop :=
  forall (r p : nat) (m : Z),
    (p <= k + r)%nat -> (r < length rs)%nat ->
    greatest_from (drop r rs) p m ->
    in_int_range m.

(** Every value of the recurrence of [max_odd_even_path], computed with
    the mathematical sum, is an [int]: for every row [r], every entry of the
    accumulator of that row. *)
Definition odd_even_fits (t : Triangle) : Prop :=
  forall (r p : nat) (m : Z),
    (r < height t)%nat ->
    accum_from spec_leaf math_odd_even_combine (drop r (rows_ t)) !! p = Some m ->
    in_int_range m.

(** [odd_even_fits] as a test. *)
Definition odd_even_fits_check (t : Triangle) : bool :=
  forallb
    (fun r =>
       forallb (fun m => (INT_MIN <=? m) && (m <=? INT_MAX))
         (accum_from spec_leaf math_odd_even_combine (drop r (rows_ t))))
    (seq 0 (height t)).

(** The triangles of the examples below. *)
Definition overflowing : Triangle := {| rows_ := [[2147483647]; [1; 1]] |}.

Definition overflowing_even : Triangle := {| rows_ := [[2]; [2147483646; 5]] |}.

Definition overflowing_parity : Triangle := {| rows_ := [[2147483647]; [1; 2]] |}.

(** No entry is negative. *)
Definition nonnegative (t : Triangle) : Prop :=
  forall (row : Row) (v : Z), row ∈ rows_ t -> v ∈ row -> 0 <= v.

(** Every entry lies between [- bound] and [bound]. *)
Definition entries_within (bound : Z) (t : Triangle) : bool :=
  forallb (forallb (fun v => (- bound <=? v) && (v <=? bound))) (rows_ t).

(** [nonnegative] as a test. *)
Definition entries_nonnegative (t : Triangle) : bool :=
  forallb (forallb (fun v => 0 <=? v)) (rows_ t).

(** The Triangle of the problem statement, and its text. *)
Definition sample : Triangle :=
  {| rows_ := [[3]; [7; 4]; [2; 4; 6]; [8; 5; 9; 3]] |}.

Definition sample_text : string :=
  ("3" ++ endl ++ "7 4" ++ endl ++ "2 4 6" ++ endl ++ "8 5 9 3" ++ endl)%string.

(** ** Views of a Triangle *)

(** A row without its last entry. *)
Definition but_last {A : Type} (row : list A) : list A :=
  take (length row - 1) row.

(** The Triangle under the left child of the apex: the rows below the
    first, each without its last entry. *)
Definition left_part (t : Triangle) : Triangle :=
  {| rows_ := but_last <$> tail (rows_ t) |}.

(** The Triangle under the right child of the apex: the rows below the
    first, each without its first entry. *)
Definition right_part (t : Triangle) : Triangle :=
  {| rows_ := tail <$> tail (rows_ t) |}.

(** The Triangle read from right to left. *)
Definition mirror (t : Triangle) : Triangle :=
  {| rows_ := reverse <$> rows_ t |}.

(** Every entry is an [int]. *)
Definition entries_int (t : Triangle) : Prop :=
  forall (row : Row) (v : Z), row ∈ rows_ t -> v ∈ row -> in_int_range v.

(** ** The text of a Triangle *)

(** The entries of a row in decimal, with one space between them. *)
Fixpoint render_row (row : Row) : string :=
  match row with
  | [] => EmptyString
  | v :: row' =>
      match row' with
      | [] => show_int v
      | _ :: _ => (show_int v ++ String " " (render_row row'))%string
      end
  end.

(** One line for each row. *)
Fixpoint render_rows (rs : list Row) : string :=
  match rs with
  | [] => EmptyString
  | row :: rs' => (render_row row ++ endl ++ render_rows rs')%string
  end.

Definition render (t : Triangle) : string := render_rows (rows_ t).

(** The lines of a stream are well formed: line [k], counted from 1,
    yields [k] values. *)
Definition lines_well_formed (stream : string) : Prop :=
  forall (k : nat) (line : string),
    stream_lines stream !! k = Some line -> length (read_row line) = S k.

(** What an extraction leaves in the stream, with [tail] put back after
    it. *)
Definition put_back (tail : string) (r : option (Z * string)) : option (Z * string) :=
  match r with
  | Some (value, rest) => Some (value, (rest ++ tail)%string)
  | None => None
  end.

(** The string does not start with a digit. *)
Definition no_leading_digit (s : string) : bool :=
  match s with
  | EmptyString => true
  | String c _ => negb (isdigit c)
  end.

(** The string holds no newline. *)
Fixpoint newline_free (s : string) : bool :=
  match s with
  | EmptyString => true
  | String c s' => negb (Ascii.eqb c newline) && newline_free s'
  end.

(** The string holds whitespace only. *)
Fixpoint blank (s : string) : bool :=
  match s with
  | EmptyString => true
  | String c s' => isspace c && blank s'
  end.

(** The part of [extract_int] that follows the sign (see
    [extract_int_sign]). *)
Definition extract_digits (negative : bool) (s : string) : option (Z * string) :=
  match s with
  | EmptyString => None
  | String c _ =>
      if isdigit c then
        let '(magnitude, rest) := read_digits s 0 in
        let value := if negative then - magnitude else magnitude in
        if (INT_MIN <=? value) && (value <=? INT_MAX)
        then Some (value, rest) else None
      else None
  end.

(** * Properties *)

(** ** The container *)

Lemma shape_from_lookup (rs : list Row) (k : nat) :
  shape_from k rs = true <->
  forall (i : nat) (row : Row), rs !! i = Some row -> length row = S (k + i).
Proof.
  revert k. induction rs as [|r rs IH]; intros k; simpl.
  - split; [intros _ i row H; discriminate | reflexivity].
  - rewrite andb_true_iff, Nat.eqb_eq, IH. split.
    + intros [Hr Hrs] [|i] row H; simpl in H.
      * injection H as <-. lia.
      * rewrite (Hrs i row H). lia.
    + intros H. split.
      * rewrite (H 0%nat r eq_refl). lia.
      * intros i row Hi. rewrite (H (S i) row Hi). lia.
Qed.

Lemma shape_ok_inv (t : Triangle) : shape_ok t = true <-> shape_inv t.
Proof. unfold shape_ok, shape_inv. apply shape_from_lookup. Qed.

Lemma empty_shape : shape_inv empty_triangle.
Proof. intros i row H. discriminate. Qed.

Lemma append_row_shape (r : Row) (t : Triangle) :
  shape_inv t -> shape_inv (append_row r t).2.
Proof.
  intros Ht. unfold append_row.
  destruct (Nat.eqb_spec (length r) (height t + 1)) as [Hlen|Hlen]; simpl; [|exact Ht].
  intros i row Hi. apply lookup_snoc_Some in Hi as [[_ Hi]|[Hi ->]].
  - exact (Ht i row Hi).
  - unfold height in Hlen. lia.
Qed.

Lemma at_assign_shape (row n : nat) (v : Z) (t : Triangle) :
  shape_inv t -> shape_inv (at_assign row n v t).2.
Proof.
  intros Ht. unfold at_assign.
  destruct (rows_ t !! row) as [r|] eqn:Hrow; [|exact Ht].
  destruct (r !! n) as [old|] eqn:Hn; [|exact Ht].
  intros i row' Hi. simpl in Hi.
  destruct (decide (row = i)) as [->|Hne].
  - rewrite list_lookup_insert_eq in Hi by (eapply lookup_lt_Some; eassumption).
    injection Hi as <-. rewrite length_insert. exact (Ht i r Hrow).
  - rewrite list_lookup_insert_ne in Hi by assumption. exact (Ht i row' Hi).
Qed.

Lemma apply_op_shape (o : operation) (t : Triangle) :
  shape_inv t -> shape_inv (apply_op o t).2.
Proof.
  destruct o; simpl; [apply append_row_shape | apply at_assign_shape].
Qed.

Lemma run_ops_shape (ops : list operation) (t t' : Triangle) :
  shape_inv t -> run_ops ops t = Some t' -> shape_inv t'.
Proof.
  revert t. induction ops as [|o ops IH]; intros t Ht Hrun; simpl in Hrun.
  - injection Hrun as <-. exact Ht.
  - pose proof (apply_op_shape o t Ht) as Hstep.
    destruct (apply_op o t) as [[u|e|] t1]; simpl in Hstep;
      [eapply IH; eassumption | eapply IH; eassumption | discriminate].
Qed.

(** C4. [append_row(r)] succeeds and appends [r] exactly when the length of
    [r] is the height plus one; in every other case it throws the
    [InvalidShape] error and the Triangle is the one it was, with the
    height it had. *)
Theorem append_row_accepts_or_rejects (t : Triangle) (r : Row) :
  append_row r t =
    (if bool_decide (length r = (height t + 1)%nat)
     then (Return tt, {| rows_ := rows_ t ++ [r] |})
     else (Throw InvalidShape, t))
  /\ height (append_row r t).2 =
       (if bool_decide (length r = (height t + 1)%nat)
        then S (height t) else height t)
  /\ ((exists t', append_row r t = (Return tt, t')) <->
      length r = (height t + 1)%nat).
Proof.
  unfold append_row.
  destruct (Nat.eqb_spec (length r) (height t + 1)) as [Hlen|Hlen]; simpl.
  - rewrite bool_decide_eq_true_2 by assumption.
    split; [reflexivity|]. split.
    + unfold height. simpl. rewrite length_app. simpl. lia.
    + split; [intros _; exact Hlen | eauto].
  - rewrite bool_decide_eq_false_2 by assumption.
    split; [reflexivity|]. split; [reflexivity|].
    split; [intros [t' H]; discriminate | intros H; contradiction].
Qed.

(** The rejection the specification gives as an example. *)
Example append_row_rejects_123 :
  append_row [1; 2; 3] empty_triangle = (Throw InvalidShape, empty_triangle)
  /\ height (append_row [1; 2; 3] empty_triangle).2 = 0%nat.
Proof. split; reflexivity. Qed.

(** C6. Every Triangle reached from the empty one by appending rows,
    accepted or rejected, and by assigning elements through [at] satisfies
    the class invariant: row [i] has [i + 1] elements. *)
Theorem reachable_shape_inv (ops : list operation) (t : Triangle) :
  run_ops ops empty_triangle = Some t ->
  forall (i : nat) (row : Row), rows_ t !! i = Some row -> length row = S i.
Proof. intros Hrun. exact (run_ops_shape ops empty_triangle t empty_shape Hrun). Qed.

Lemma reachable_shape_inv_witness :
  run_ops [AppendRow [1]; AppendRow [1; 2; 3]; Assign 0 0 5; AppendRow [2; 3]]
          empty_triangle = Some {| rows_ := [[5]; [2; 3]] |}
  /\ forall (i : nat) (row : Row),
       rows_ {| rows_ := [[5]; [2; 3]] |} !! i = Some row -> length row = S i.
Proof.
  split; [reflexivity|].
  apply (reachable_shape_inv
           [AppendRow [1]; AppendRow [1; 2; 3]; Assign 0 0 5; AppendRow [2; 3]]).
  reflexivity.
Defined.

(** C7. On the Triangle [[3],[7,4],[2,4,6],[8,5,9,3]], [max_path] returns
    23, the sum of the path through 3, 7, 4 and 9. *)
Theorem max_path_sample :
  max_path sample = Return 23
  /\ is_path sample [0; 0; 1; 2]%nat = true
  /\ path_sum (rows_ sample) [0; 0; 1; 2]%nat = 3 + 7 + 4 + 9.
Proof. repeat split. Qed.

(** ** The fold engine *)

Section fold_facts.
Context {T : Type}.
Variable make_t : Z -> T.
Variable combine_t : Z -> T -> T -> T.

Lemma fresh_row_lookup (row : Row) (old : list T) (i : nat) :
  (length row < length old)%nat ->
  fresh_row combine_t row old !! i = recurrence_entry combine_t row old i.
Proof.
  revert old i. induction row as [|v row IH]; intros old i Hlen.
  - reflexivity.
  - destruct old as [|l [|r old]]; simpl in Hlen; try lia.
    destruct i as [|i]; [reflexivity|].
    simpl. rewrite IH by (simpl; lia). reflexivity.
Qed.

Lemma fresh_row_length (row : Row) (old : list T) :
  (length row < length old)%nat ->
  length (fresh_row combine_t row old) = length row.
Proof.
  revert old. induction row as [|v row IH]; intros old Hlen; [reflexivity|].
  destruct old as [|l [|r old]]; simpl in Hlen; try lia.
  simpl. rewrite IH by (simpl; lia). reflexivity.
Qed.

Lemma fresh_row_stale (row : Row) (old stale : list T) :
  (length row < length old)%nat ->
  fresh_row combine_t row (old ++ stale) = fresh_row combine_t row old.
Proof.
  revert old. induction row as [|v row IH]; intros old Hlen; [reflexivity|].
  destruct old as [|l [|r old]]; simpl in Hlen; try lia.
  simpl. f_equal. apply (IH (r :: old)). simpl. lia.
Qed.

(** The step of the recurrence, entry by entry, is [fresh_row]. *)
Lemma recurrence_step_fresh (row : Row) (old : list T) :
  (length row < length old)%nat ->
  recurrence_step combine_t row old = Some (fresh_row combine_t row old).
Proof.
  intros Hlen. unfold recurrence_step. apply mapM_Some.
  apply Forall2_same_length_lookup. split.
  - rewrite length_seq, fresh_row_length by assumption. reflexivity.
  - intros i x y Hx Hy. apply lookup_seq in Hx as [-> _]. simpl.
    rewrite <- fresh_row_lookup by assumption. exact Hy.
Qed.

(** The in-place loop over a row: the entries before [i] are kept, the
    entries of the row from [i] on are recomputed from the entries that
    were there, and the entries past the row are left as they are. *)
Lemma combine_row_fresh (n : nat) (row : Row) (i : nat) (accum : list T) :
  (i + n = length row)%nat ->
  (length row < length accum)%nat ->
  combine_row combine_t n row i accum =
    Return (take i accum
            ++ fresh_row combine_t (drop i row) (drop i accum)
            ++ drop (length row) accum).
Proof.
  revert i accum. induction n as [|n IH]; intros i accum Hi Hlen; simpl.
  - replace i with (length row) by lia.
    rewrite (drop_ge row) by lia. simpl. rewrite take_drop. reflexivity.
  - destruct (lookup_lt_is_Some_2 row i) as [v Hv]; [lia|].
    destruct (lookup_lt_is_Some_2 accum i) as [l Hl]; [lia|].
    destruct (lookup_lt_is_Some_2 accum (S i)) as [r Hr]; [lia|].
    rewrite Hv, Hl, Hr.
    rewrite IH by (rewrite ?length_insert; lia).
    rewrite (take_S_r _ i (combine_t v l r))
      by (apply list_lookup_insert_eq; lia).
    rewrite take_insert_ge by lia.
    rewrite !drop_insert_lt by lia.
    rewrite (drop_S row v i Hv), (drop_S accum l i Hl), (drop_S accum r (S i) Hr).
    simpl. rewrite <- app_assoc. reflexivity.
Qed.

Lemma climb_fresh (uppers : list Row) (accum stale : list T) :
  (forall (j : nat) (row : Row),
      uppers !! j = Some row -> S (length row + j) = length accum) ->
  (exists stale',
      climb combine_t uppers (accum ++ stale) =
        Return (fresh_rows combine_t uppers accum ++ stale'))
  /\ recurrence_rows combine_t uppers accum = Some (fresh_rows combine_t uppers accum)
  /\ (length (fresh_rows combine_t uppers accum) + length uppers)%nat = length accum.
Proof.
  revert accum stale.
  induction uppers as [|row uppers IH]; intros accum stale Hshape; simpl.
  - split; [exists stale; reflexivity|]. split; [reflexivity | lia].
  - pose proof (Hshape 0%nat row eq_refl) as Hrow.
    assert (Hlen : (length row < length accum)%nat) by lia.
    assert (Hrest : forall (j : nat) (row' : Row),
               uppers !! j = Some row' ->
               S (length row' + j) = length (fresh_row combine_t row accum)).
    { intros j row' Hj. rewrite fresh_row_length by assumption.
      pose proof (Hshape (S j) row' Hj). lia. }
    rewrite combine_row_fresh by (rewrite ?length_app; lia).
    rewrite !drop_0, fresh_row_stale by assumption. simpl.
    rewrite recurrence_step_fresh by assumption. simpl.
    destruct (IH (fresh_row combine_t row accum)
                 (drop (length row) (accum ++ stale)) Hrest)
      as ([stale' Hclimb] & Hrec & Hlength).
    split; [exists stale'; exact Hclimb|]. split; [exact Hrec|].
    rewrite fresh_row_length in Hlength by assumption. lia.
Qed.

(** The rows of a Triangle that has the shape, seen from the bottom. *)
Lemma shape_reverse (t : Triangle) (bottom : Row) (uppers : list Row) :
  shape_inv t ->
  reverse (rows_ t) = bottom :: uppers ->
  length bottom = height t
  /\ S (length uppers) = height t
  /\ forall (j : nat) (row : Row),
       uppers !! j = Some row -> S (length row + j) = length bottom.
Proof.
  intros Hshape Hrev.
  assert (Hlook : forall (j : nat) (row : Row),
             (bottom :: uppers) !! j = Some row ->
             (length row + j)%nat = height t).
  { intros j row Hj. rewrite <- Hrev in Hj.
    apply reverse_lookup_Some in Hj as [Hj Hlt].
    rewrite (Hshape _ _ Hj). unfold height. lia. }
  assert (Hheight : S (length uppers) = height t).
  { unfold height. rewrite <- (length_reverse (rows_ t)), Hrev. reflexivity. }
  pose proof (Hlook 0%nat bottom eq_refl) as Hbottom.
  split; [lia|]. split; [exact Hheight|].
  intros j row Hj. pose proof (Hlook (S j) row Hj). lia.
Qed.

(** On a Triangle with at least one row, [fold_triangle] returns, and
    what it returns is the value of the recurrence. *)
Lemma fold_triangle_returns (t : Triangle) :
  shape_inv t -> height t <> 0%nat ->
  exists (bottom : Row) (uppers : list Row) (x : T),
    reverse (rows_ t) = bottom :: uppers
    /\ fresh_rows combine_t uppers (make_t <$> bottom) = [x]
    /\ fold_triangle make_t combine_t t = Return x
    /\ fold_recurrence make_t combine_t t = Some x.
Proof.
  intros Hshape Hheight.
  destruct (reverse (rows_ t)) as [|bottom uppers] eqn:Hrev.
  { apply (f_equal length) in Hrev. rewrite length_reverse in Hrev.
    unfold height in Hheight. simpl in Hrev. lia. }
  destruct (shape_reverse t bottom uppers Hshape Hrev) as (Hb & Hu & Hrows).
  destruct (climb_fresh uppers (make_t <$> bottom) []) as ([stale Hclimb] & Hrec & Hlen).
  { intros j row Hj. rewrite length_fmap. exact (Hrows j row Hj). }
  rewrite length_fmap in Hlen. rewrite app_nil_r in Hclimb.
  destruct (fresh_rows combine_t uppers (make_t <$> bottom)) as [|x [|y rest]] eqn:Hacc;
    simpl in Hlen; try lia.
  exists bottom, uppers, x. split; [reflexivity|]. split; [exact Hacc|].
  unfold fold_triangle, fold_recurrence, rows.
  rewrite Hrev, Hclimb, Hrec.
  destruct (Nat.eqb_spec (height t) 0); [contradiction|].
  split; reflexivity.
Qed.
End fold_facts.

(** C2. On a Triangle with at least one row, [fold_triangle] returns the
    value of the recurrence: the accumulator starts as [make_leaf] of the
    bottom row; for each row above it, in decreasing order, entry [i]
    becomes [combine(row[i], old[i], old[i+1])]; the result is the first
    entry after the top row. *)
Theorem fold_triangle_recurrence {T : Type}
    (make_leaf : Z -> T) (combine : Z -> T -> T -> T) (t : Triangle) :
  shape_inv t -> height t <> 0%nat ->
  exists x : T,
    fold_triangle make_leaf combine t = Return x
    /\ fold_recurrence make_leaf combine t = Some x.
Proof.
  intros Hshape Hheight.
  destruct (fold_triangle_returns make_leaf combine t Hshape Hheight)
    as (bottom & uppers & x & _ & _ & Hfold & Hrec).
  exists x. split; assumption.
Qed.

Lemma fold_triangle_recurrence_witness :
  shape_inv sample /\ height sample <> 0%nat
  /\ exists x : Z,
       fold_triangle (fun v => v) (fun v l r => v + l * r) sample = Return x
       /\ fold_recurrence (fun v => v) (fun v l r => v + l * r) sample = Some x.
Proof.
  assert (Hshape : shape_inv sample) by (apply shape_ok_inv; reflexivity).
  assert (Hheight : height sample <> 0%nat) by discriminate.
  split; [exact Hshape|]. split; [exact Hheight|].
  exact (fold_triangle_recurrence (fun v => v) (fun v l r => v + l * r) sample
           Hshape Hheight).
Defined.

(** C5. [fold_triangle] throws the [EmptyTriangle] error exactly when the
    Triangle has height 0, and on a Triangle of height at least 1 it
    returns a value. *)
Theorem fold_triangle_empty_iff {T : Type}
    (make_t : Z -> T) (combine_t : Z -> T -> T -> T) (t : Triangle) :
  shape_inv t ->
  (fold_triangle make_t combine_t t = Throw EmptyTriangle <-> height t = 0%nat)
  /\ ((1 <= height t)%nat ->
      exists x : T, fold_triangle make_t combine_t t = Return x).
Proof.
  intros Hshape. split.
  - split.
    + intros Hthrow. destruct (decide (height t = 0%nat)) as [|Hne]; [assumption|].
      destruct (fold_triangle_returns make_t combine_t t Hshape Hne)
        as (bottom & uppers & x & _ & _ & Hfold & _).
      rewrite Hfold in Hthrow. discriminate.
    + intros Hzero. unfold fold_triangle. rewrite Hzero. reflexivity.
  - intros Hheight.
    destruct (fold_triangle_returns make_t combine_t t Hshape)
      as (bottom & uppers & x & _ & _ & Hfold & _); [lia|].
    exists x. exact Hfold.
Qed.

Lemma fold_triangle_empty_iff_witness :
  shape_inv sample /\
  (fold_triangle (fun v => v) (fun v l r => v + l + r) sample = Throw EmptyTriangle
   <-> height sample = 0%nat)
  /\ ((1 <= height sample)%nat ->
      exists x : Z, fold_triangle (fun v => v) (fun v l r => v + l + r) sample = Return x).
Proof.
  assert (Hshape : shape_inv sample) by (apply shape_ok_inv; reflexivity).
  split; [exact Hshape|].
  exact (fold_triangle_empty_iff (fun v => v) (fun v l r => v + l + r) sample Hshape).
Defined.

(** ** Paths and the accumulator *)

Section top_down.
Context {T : Type}.
Variable make_t : Z -> T.
Variable combine_t : Z -> T -> T -> T.

Lemma fresh_rows_top_down (tops : list Row) (bottom : Row) :
  fresh_rows combine_t (reverse tops) (make_t <$> bottom) =
    accum_from make_t combine_t (tops ++ [bottom]).
Proof.
  induction tops as [|row tops IH]; [reflexivity|].
  rewrite reverse_cons. unfold fresh_rows in *.
  rewrite fold_left_app, IH. simpl.
  destruct (tops ++ [bottom]) as [|r2 rs] eqn:Happ; [|reflexivity].
  destruct tops; discriminate.
Qed.

Lemma fresh_rows_accum_from (rs : list Row) (bottom : Row) (uppers : list Row) :
  reverse rs = bottom :: uppers ->
  fresh_rows combine_t uppers (make_t <$> bottom) = accum_from make_t combine_t rs.
Proof.
  intros Hrev.
  rewrite <- (reverse_involutive rs), Hrev, reverse_cons.
  rewrite <- fresh_rows_top_down, reverse_involutive. reflexivity.
Qed.
End top_down.

Lemma tapers_tail (k : nat) (row : Row) (rs : list Row) :
  tapers k (row :: rs) -> tapers (S k) rs.
Proof. intros H i r Hi. rewrite (H (S i) r Hi). lia. Qed.

Lemma steps_ok_cons (c c' : nat) (below : list nat) :
  steps_ok c (c' :: below) = true <->
  (c' = c \/ c' = S c) /\ steps_ok c' below = true.
Proof.
  simpl. rewrite andb_true_iff, orb_true_iff, !Nat.eqb_eq. reflexivity.
Qed.

(** The accumulator computed with mathematical integers holds, at each
    position of the first row, the greatest sum of the paths from there to
    the bottom row. *)
Lemma ideal_accum_greatest (rs : list Row) (k : nat) :
  rs <> [] -> tapers k rs ->
  length (accum_from (fun v => v) ideal_combine rs) = S k
  /\ forall p : nat, (p <= k)%nat ->
       exists m : Z,
         accum_from (fun v => v) ideal_combine rs !! p = Some m
         /\ greatest_from rs p m.
Proof.
  revert k. induction rs as [|row rs IH]; intros k Hne Hshape; [contradiction|].
  pose proof (Hshape 0%nat row eq_refl) as Hrow. rewrite Nat.add_0_r in Hrow.
  destruct rs as [|row2 rs].
  - simpl. rewrite list_fmap_id. split; [exact Hrow|].
    intros p Hp.
    destruct (lookup_lt_is_Some_2 row p) as [m Hm]; [lia|].
    exists m. split; [exact Hm|]. split.
    + exists []. simpl. rewrite Hm. simpl. split; [reflexivity|]. split; [reflexivity | lia].
    + intros below _ Hlen. destruct below; [|discriminate].
      simpl. rewrite Hm. simpl. lia.
  - destruct (IH (S k)) as [Hlen' Hbelow]; [discriminate | eapply tapers_tail; eassumption |].
    set (rs' := row2 :: rs) in *.
    change (accum_from (fun v => v) ideal_combine (row :: rs'))
      with (fresh_row ideal_combine row (accum_from (fun v => v) ideal_combine rs')).
    set (acc' := accum_from (fun v => v) ideal_combine rs') in *.
    split; [rewrite fresh_row_length by lia; exact Hrow|].
    intros p Hp.
    destruct (lookup_lt_is_Some_2 row p) as [v Hv]; [lia|].
    destruct (Hbelow p) as (l & Hl & [bl (Hbl1 & Hbl2 & Hbl3)] & Hlmax); [lia|].
    destruct (Hbelow (S p)) as (r & Hr & [br (Hbr1 & Hbr2 & Hbr3)] & Hrmax); [lia|].
    exists (ideal_combine v l r). split.
    { rewrite fresh_row_lookup by lia. unfold recurrence_entry.
      rewrite Hv, Hl, Hr. reflexivity. }
    unfold ideal_combine. split.
    + destruct (Z.le_ge_cases l r) as [Hle|Hle].
      * exists (S p :: br). rewrite steps_ok_cons.
        split; [split; [right; reflexivity | exact Hbr1]|].
        split; [simpl in *; lia|].
        change (path_sum (row :: rs') (p :: S p :: br))
          with (default 0 (row !! p) + path_sum rs' (S p :: br)).
        rewrite Hv, Hbr3. simpl. lia.
      * exists (p :: bl). rewrite steps_ok_cons.
        split; [split; [left; reflexivity | exact Hbl1]|].
        split; [simpl in *; lia|].
        change (path_sum (row :: rs') (p :: p :: bl))
          with (default 0 (row !! p) + path_sum rs' (p :: bl)).
        rewrite Hv, Hbl3. simpl. lia.
    + intros below Hsteps Hlen.
      destruct below as [|c below]; [simpl in Hlen; lia|].
      apply steps_ok_cons in Hsteps as [Hc Hsteps].
      change (path_sum (row :: rs') (p :: c :: below))
        with (default 0 (row !! p) + path_sum rs' (c :: below)).
      rewrite Hv. simpl default.
      assert (Hlen2 : S (length below) = length rs') by (simpl in *; lia).
      destruct Hc as [->| ->].
      * pose proof (Hlmax below Hsteps Hlen2). lia.
      * pose proof (Hrmax below Hsteps Hlen2). lia.
Qed.

Lemma sums_fit_tail (k : nat) (row : Row) (rs : list Row) :
  sums_fit k (row :: rs) -> sums_fit (S k) rs.
Proof.
  intros H r p m Hp Hr Hm.
  apply (H (S r) p m); [lia | simpl; lia | exact Hm].
Qed.

Lemma wrap_int_id (z : Z) : in_int_range z -> wrap_int z = z.
Proof.
  unfold in_int_range, INT_MIN, INT_MAX, wrap_int. intros H.
  rewrite Z.mod_small; lia.
Qed.

Lemma std_max_max (a b : Z) : std_max a b = Z.max a b.
Proof. unfold std_max. destruct (Z.ltb_spec a b); lia. Qed.

(** Where the sums fit, [max_path] computes the accumulator of the
    mathematical integers. *)
Lemma max_accum_ideal (rs : list Row) (k : nat) :
  rs <> [] -> tapers k rs -> sums_fit k rs ->
  accum_from (fun i : Z => i)
             (fun i left right : Z => int_add i (std_max left right)) rs
  = accum_from (fun v => v) ideal_combine rs.
Proof.
  revert k. induction rs as [|row rs IH]; intros k Hne Hshape Hfit; [contradiction|].
  destruct rs as [|row2 rs]; [reflexivity|].
  pose proof (ideal_accum_greatest (row :: row2 :: rs) k Hne Hshape) as [Hlen Hall].
  destruct (ideal_accum_greatest (row2 :: rs) (S k)) as [Hlen' _];
    [discriminate | eapply tapers_tail; eassumption |].
  pose proof (Hshape 0%nat row eq_refl) as Hrow. rewrite Nat.add_0_r in Hrow.
  set (rs' := row2 :: rs) in *.
  change (accum_from (fun i : Z => i)
            (fun i left right : Z => int_add i (std_max left right)) (row :: rs'))
    with (fresh_row (fun i left right : Z => int_add i (std_max left right)) row
            (accum_from (fun i : Z => i)
               (fun i left right : Z => int_add i (std_max left right)) rs')).
  rewrite (IH (S k)); [| discriminate | eapply tapers_tail; eassumption
                       | eapply sums_fit_tail; eassumption].
  change (accum_from (fun v => v) ideal_combine (row :: rs'))
    with (fresh_row ideal_combine row (accum_from (fun v => v) ideal_combine rs')) in *.
  set (acc' := accum_from (fun v => v) ideal_combine rs') in *.
  apply list_eq. intros p.
  rewrite !fresh_row_lookup by lia.
  destruct (decide (p <= k)%nat) as [Hp|Hp].
  - destruct (Hall p Hp) as (m & Hm & Hgreatest).
    assert (Hrange : in_int_range m).
    { apply (Hfit 0%nat p m); [lia | simpl; lia | exact Hgreatest]. }
    rewrite fresh_row_lookup in Hm by lia.
    unfold recurrence_entry in *.
    destruct (row !! p) as [v|]; [|discriminate].
    destruct (acc' !! p) as [l|]; [|discriminate].
    destruct (acc' !! S p) as [r|]; [|discriminate].
    simpl in *. injection Hm as Hm. f_equal.
    unfold int_add. rewrite std_max_max. unfold ideal_combine in *.
    apply wrap_int_id. rewrite Hm. exact Hrange.
  - unfold recurrence_entry. rewrite (lookup_ge_None_2 row p) by lia. reflexivity.
Qed.

Lemma is_path_inv (t : Triangle) (cols : list nat) :
  is_path t cols = true <->
  exists below : list nat,
    cols = 0%nat :: below /\ steps_ok 0 below = true
    /\ S (length below) = height t.
Proof.
  unfold is_path. split.
  - destruct cols as [|c below]; [discriminate|].
    rewrite !andb_true_iff, !Nat.eqb_eq. intros [[-> Hsteps] Hlen].
    exists below. split; [reflexivity|]. split; [assumption | exact Hlen].
  - intros (below & -> & Hsteps & Hlen).
    rewrite !andb_true_iff, !Nat.eqb_eq. split; [split; [reflexivity | assumption] | exact Hlen].
Qed.

(** The front of the accumulator of mathematical integers is the greatest
    sum over the paths from the apex to the base. *)
Lemma ideal_front_greatest (t : Triangle) (m : Z) :
  shape_inv t -> height t <> 0%nat ->
  head (accum_from (fun v => v) ideal_combine (rows_ t)) = Some m ->
  greatest_path_sum t m.
Proof.
  intros Hshape Hheight Hhead.
  destruct (ideal_accum_greatest (rows_ t) 0) as [_ Hall].
  { intros Hnil. unfold height in Hheight. rewrite Hnil in Hheight. contradiction. }
  { exact Hshape. }
  destruct (Hall 0%nat (Nat.le_refl 0)) as (m' & Hm' & [below (Hb1 & Hb2 & Hb3)] & Hmax).
  rewrite head_lookup, Hm' in Hhead. injection Hhead as ->.
  split.
  - exists (0%nat :: below). split; [|exact Hb3].
    apply is_path_inv. exists below. split; [reflexivity|]. split; assumption.
  - intros cols Hpath. apply is_path_inv in Hpath as (b & -> & Hs & Hl).
    apply Hmax; assumption.
Qed.

Lemma greatest_path_sum_unique (t : Triangle) (m m' : Z) :
  greatest_path_sum t m -> greatest_path_sum t m' -> m = m'.
Proof.
  intros [[c (Hc & Hcm)] Hmax] [[c' (Hc' & Hcm')] Hmax'].
  pose proof (Hmax c' Hc'). pose proof (Hmax' c Hc). lia.
Qed.

(** ** [max_path] *)

Lemma path_sum_bounded (bound : Z) (rs : list Row) (cols : list nat) :
  0 <= bound ->
  forallb (forallb (fun v => (- bound <=? v) && (v <=? bound))) rs = true ->
  - (bound * Z.of_nat (length rs)) <= path_sum rs cols <= bound * Z.of_nat (length rs).
Proof.
  intros Hbound. revert cols.
  induction rs as [|row rs IH]; intros cols Hall; [simpl; lia|].
  destruct cols as [|c cols]; [simpl length; simpl path_sum; nia|].
  simpl in Hall. apply andb_true_iff in Hall as [Hrow Hrs].
  specialize (IH cols Hrs).
  assert (Hv : - bound <= default 0 (row !! c) <= bound).
  { destruct (row !! c) as [v|] eqn:Hc; simpl; [|lia].
    rewrite forallb_forall in Hrow.
    assert (Hin : In v row) by (apply list_elem_of_In; eapply list_elem_of_lookup_2; eassumption).
    apply Hrow in Hin. lia. }
  change (path_sum (row :: rs) (c :: cols))
    with (default 0 (row !! c) + path_sum rs cols).
  simpl length. nia.
Qed.

(** A sufficient condition for the sums to fit: the entries are bounded
    and the bound times the height is at most [INT_MAX]. *)
Lemma entries_within_fit (bound : Z) (t : Triangle) :
  0 <= bound ->
  entries_within bound t = true ->
  bound * Z.of_nat (height t) <= INT_MAX ->
  sums_fit_int t.
Proof.
  intros Hbound Hall Hmax r p m _ _ [[below (_ & _ & <-)] _].
  assert (Hdrop : forallb (forallb (fun v => (- bound <=? v) && (v <=? bound)))
                    (drop r (rows_ t)) = true).
  { unfold entries_within in Hall. rewrite forallb_forall in *.
    intros row Hin. apply Hall.
    apply list_elem_of_In. apply list_elem_of_In in Hin.
    apply list_elem_of_lookup in Hin as [i Hi]. rewrite lookup_drop in Hi.
    eapply list_elem_of_lookup_2. eassumption. }
  pose proof (path_sum_bounded bound (drop r (rows_ t)) (p :: below) Hbound Hdrop) as Hsum.
  rewrite length_drop in Hsum.
  unfold in_int_range, INT_MIN, INT_MAX, height in *. nia.
Qed.

Lemma max_path_front (t : Triangle) :
  shape_inv t -> height t <> 0%nat -> sums_fit_int t ->
  exists m : Z,
    max_path t = Return m
    /\ head (accum_from (fun v => v) ideal_combine (rows_ t)) = Some m.
Proof.
  intros Hshape Hheight Hfit.
  destruct (fold_triangle_returns
              (fun i : Z => i)
              (fun i left right : Z => int_add i (std_max left right))
              t Hshape Hheight)
    as (bottom & uppers & x & Hrev & Hacc & Hfold & _).
  exists x. split; [exact Hfold|].
  rewrite (fresh_rows_accum_from _ _ (rows_ t) bottom uppers Hrev) in Hacc.
  rewrite <- (max_accum_ideal (rows_ t) 0), Hacc; [reflexivity | | exact Hshape | exact Hfit].
  intros Hnil. unfold height in Hheight. rewrite Hnil in Hheight. contradiction.
Qed.

(** C1, amended. On a Triangle with at least one row in which the sum of
    every path from an entry down to the bottom row fits an [int],
    [max_path] returns the greatest sum over the paths from the apex to the
    base. *)
Theorem max_path_greatest (t : Triangle) :
  shape_inv t -> height t <> 0%nat -> sums_fit_int t ->
  exists m : Z, max_path t = Return m /\ greatest_path_sum t m.
Proof.
  intros Hshape Hheight Hfit.
  destruct (max_path_front t Hshape Hheight Hfit) as (m & Hm & Hhead).
  exists m. split; [exact Hm|].
  exact (ideal_front_greatest t m Hshape Hheight Hhead).
Qed.

Lemma max_path_greatest_witness :
  shape_inv sample /\ height sample <> 0%nat /\ sums_fit_int sample
  /\ exists m : Z, max_path sample = Return m /\ greatest_path_sum sample m.
Proof.
  assert (Hshape : shape_inv sample) by (apply shape_ok_inv; reflexivity).
  assert (Hheight : height sample <> 0%nat) by discriminate.
  assert (Hfit : sums_fit_int sample).
  { apply (entries_within_fit 9); [lia | reflexivity | vm_compute; discriminate]. }
  split; [exact Hshape|]. split; [exact Hheight|]. split; [exact Hfit|].
  exact (max_path_greatest sample Hshape Hheight Hfit).
Defined.

(** C1 as stated fails where a sum leaves the range of [int]: the paths of
    [[2147483647],[1,1]] have the sum 2147483648, which [max_path], whose
    result is an [int], does not return. *)
Lemma max_path_overflow :
  shape_inv overflowing
  /\ height overflowing <> 0%nat
  /\ max_path overflowing = Return (-2147483648)
  /\ greatest_path_sum overflowing 2147483648
  /\ ~ (exists m : Z, max_path overflowing = Return m
                      /\ greatest_path_sum overflowing m).
Proof.
  assert (Hshape : shape_inv overflowing) by (apply shape_ok_inv; reflexivity).
  assert (Hgreatest : greatest_path_sum overflowing 2147483648).
  { apply ideal_front_greatest; [exact Hshape | discriminate | reflexivity]. }
  split; [exact Hshape|]. split; [discriminate|]. split; [reflexivity|].
  split; [exact Hgreatest|].
  intros (m & Hm & Hg).
  pose proof (greatest_path_sum_unique _ _ _ Hg Hgreatest) as ->.
  discriminate.
Qed.

(** ** [max_odd_even_path] *)

Section fold_ext.
Context {T : Type}.
Variables (make_t make_t' : Z -> T) (combine_t combine_t' : Z -> T -> T -> T).
Hypothesis make_eq : forall v, make_t v = make_t' v.
Hypothesis combine_eq : forall v l r, combine_t v l r = combine_t' v l r.

Lemma combine_row_ext (n : nat) (row : Row) (i : nat) (accum : list T) :
  combine_row combine_t n row i accum = combine_row combine_t' n row i accum.
Proof.
  revert i accum. induction n as [|n IH]; intros i accum; [reflexivity|].
  simpl. destruct (row !! i), (accum !! i), (accum !! S i); try reflexivity.
  rewrite combine_eq. apply IH.
Qed.

Lemma climb_ext (uppers : list Row) (accum : list T) :
  climb combine_t uppers accum = climb combine_t' uppers accum.
Proof.
  revert accum. induction uppers as [|row uppers IH]; intros accum; [reflexivity|].
  simpl. rewrite combine_row_ext.
  destruct (combine_row combine_t' (length row) row 0 accum); simpl; auto.
Qed.

Lemma fold_triangle_ext (t : Triangle) :
  fold_triangle make_t combine_t t = fold_triangle make_t' combine_t' t.
Proof.
  unfold fold_triangle.
  destruct (Nat.eqb (height t) 0); [reflexivity|].
  destruct (reverse (rows t)) as [|bottom uppers]; [reflexivity|].
  assert (make_t <$> bottom = make_t' <$> bottom) as ->
    by (apply list_fmap_ext; intros; apply make_eq).
  rewrite climb_ext. reflexivity.
Qed.
End fold_ext.

Lemma is_even_even (n : Z) : is_even n = Z.even n.
Proof.
  unfold is_even. apply eq_true_iff_eq.
  rewrite Z.eqb_eq, Z.rem_divide, Z.even_spec by lia.
  split; intros [m Hm]; exists m; lia.
Qed.

(** The tests of the code, [n % 2 == 0] and [std::max], are evenness and
    the maximum; the sum is still the one of [int]. *)
Lemma max_odd_even_path_int_fold (t : Triangle) :
  max_odd_even_path t = fold_triangle spec_leaf spec_odd_even_combine t.
Proof.
  unfold max_odd_even_path. apply fold_triangle_ext; [reflexivity|].
  intros v l r. unfold spec_odd_even_combine.
  rewrite std_max_max, !is_even_even. reflexivity.
Qed.

Lemma accum_from_length {T : Type} (make_t : Z -> T) (combine_t : Z -> T -> T -> T)
    (rs : list Row) (k : nat) :
  rs <> [] -> tapers k rs -> length (accum_from make_t combine_t rs) = S k.
Proof.
  revert k. induction rs as [|row rs IH]; intros k Hne Hshape; [contradiction|].
  pose proof (Hshape 0%nat row eq_refl) as Hrow. rewrite Nat.add_0_r in Hrow.
  destruct rs as [|row2 rs].
  - simpl. rewrite length_fmap. exact Hrow.
  - change (accum_from make_t combine_t (row :: row2 :: rs))
      with (fresh_row combine_t row (accum_from make_t combine_t (row2 :: rs))).
    rewrite fresh_row_length; [exact Hrow|].
    rewrite (IH (S k)); [lia | discriminate | eapply tapers_tail; eassumption].
Qed.

(** Where the values of the recurrence fit an [int], the sum of [int]
    computes the mathematical sum at every entry of the accumulator. *)
Lemma odd_even_accum_math (rs : list Row) (k : nat) :
  rs <> [] -> tapers k rs ->
  (forall (r p : nat) (m : Z),
      (r < length rs)%nat ->
      accum_from spec_leaf math_odd_even_combine (drop r rs) !! p = Some m ->
      in_int_range m) ->
  accum_from spec_leaf spec_odd_even_combine rs
  = accum_from spec_leaf math_odd_even_combine rs.
Proof.
  revert k. induction rs as [|row rs IH]; intros k Hne Hshape Hfit; [contradiction|].
  destruct rs as [|row2 rs]; [reflexivity|].
  assert (Hshape' : tapers (S k) (row2 :: rs)) by (eapply tapers_tail; eassumption).
  pose proof (Hshape 0%nat row eq_refl) as Hrow. rewrite Nat.add_0_r in Hrow.
  pose proof (accum_from_length spec_leaf math_odd_even_combine (row2 :: rs) (S k)
                ltac:(discriminate) Hshape') as Hlen.
  pose proof (Hfit 0%nat) as Htop.
  set (rs' := row2 :: rs) in *.
  change (accum_from spec_leaf spec_odd_even_combine (row :: rs'))
    with (fresh_row spec_odd_even_combine row
            (accum_from spec_leaf spec_odd_even_combine rs')).
  change (drop 0 (row :: rs')) with (row :: rs') in Htop.
  change (accum_from spec_leaf math_odd_even_combine (row :: rs'))
    with (fresh_row math_odd_even_combine row
            (accum_from spec_leaf math_odd_even_combine rs')) in *.
  rewrite (IH (S k)); [| discriminate | exact Hshape' |].
  - apply list_eq. intros p. specialize (Htop p).
    rewrite fresh_row_lookup in Htop by lia.
    rewrite !fresh_row_lookup by lia.
    unfold recurrence_entry in *.
    destruct (row !! p) as [v|]; [|reflexivity].
    destruct (accum_from spec_leaf math_odd_even_combine rs' !! p) as [l|];
      [|reflexivity].
    destruct (accum_from spec_leaf math_odd_even_combine rs' !! S p) as [r|];
      [|reflexivity].
    simpl in *. f_equal. unfold spec_odd_even_combine, int_add.
    apply wrap_int_id.
    exact (Htop (math_odd_even_combine v l r) ltac:(lia) eq_refl).
  - intros r p m Hr Hm.
    apply (Hfit (S r) p m); [unfold rs' in *; simpl in *; lia | exact Hm].
Qed.

Lemma odd_even_fits_check_spec (t : Triangle) :
  odd_even_fits_check t = true -> odd_even_fits t.
Proof.
  unfold odd_even_fits_check, odd_even_fits. intros Hall r p m Hr Hm.
  rewrite forallb_forall in Hall.
  assert (Hin : In r (seq 0 (height t))) by (apply in_seq; lia).
  apply Hall in Hin. rewrite forallb_forall in Hin.
  assert (Hm' : In m (accum_from spec_leaf math_odd_even_combine (drop r (rows_ t)))).
  { apply list_elem_of_In. eapply list_elem_of_lookup_2. exact Hm. }
  apply Hin in Hm'. unfold in_int_range. lia.
Qed.

(** C3, amended. On a Triangle in which every value of the recurrence,
    computed with the mathematical sum, fits an [int],
    [max_odd_even_path] is [fold_triangle] with the leaf function [v] and
    the combining function
    [v + max(is_even(l) ? 0 : l, is_even(r) ? r : 0)]: the left child
    contributes its value when it is odd, the right child when it is even,
    and a child that fails its test contributes 0 to the maximum. *)
Theorem max_odd_even_path_spec_fold (t : Triangle) :
  shape_inv t -> odd_even_fits t ->
  max_odd_even_path t = fold_triangle spec_leaf math_odd_even_combine t
  /\ forall v l r : Z,
       math_odd_even_combine v l r =
         v + Z.max (left_contribution l) (right_contribution r).
Proof.
  intros Hshape Hfit. split.
  - rewrite max_odd_even_path_int_fold.
    destruct (decide (height t = 0%nat)) as [Hzero|Hheight].
    { unfold fold_triangle. rewrite Hzero. reflexivity. }
    destruct (fold_triangle_returns spec_leaf spec_odd_even_combine t Hshape Hheight)
      as (bottom & uppers & x & Hrev & Hacc & Hfold & _).
    destruct (fold_triangle_returns spec_leaf math_odd_even_combine t Hshape Hheight)
      as (bottom' & uppers' & y & Hrev' & Hacc' & Hfold' & _).
    rewrite (fresh_rows_accum_from _ _ (rows_ t) bottom uppers Hrev) in Hacc.
    rewrite (fresh_rows_accum_from _ _ (rows_ t) bottom' uppers' Hrev') in Hacc'.
    rewrite (odd_even_accum_math (rows_ t) 0) in Hacc.
    + rewrite Hfold, Hfold'. congruence.
    + intros Hnil. unfold height in Hheight. rewrite Hnil in Hheight. contradiction.
    + exact Hshape.
    + exact Hfit.
  - intros v l r. unfold math_odd_even_combine, left_contribution, right_contribution.
    rewrite <- Z.negb_even. destruct (Z.even l); reflexivity.
Qed.

Lemma max_odd_even_path_spec_fold_witness :
  shape_inv sample /\ odd_even_fits sample
  /\ max_odd_even_path sample = fold_triangle spec_leaf math_odd_even_combine sample
  /\ forall v l r : Z,
       math_odd_even_combine v l r =
         v + Z.max (left_contribution l) (right_contribution r).
Proof.
  assert (Hshape : shape_inv sample) by (apply shape_ok_inv; reflexivity).
  assert (Hfit : odd_even_fits sample) by (apply odd_even_fits_check_spec; reflexivity).
  split; [exact Hshape|]. split; [exact Hfit|].
  exact (max_odd_even_path_spec_fold sample Hshape Hfit).
Defined.

(** C3 as stated fails where the sum leaves the range of [int]: on
    [[2147483647],[1,2]] the right child 2 is even and contributes, the
    combining function of the specification gives 2147483647 + 2, and
    [max_odd_even_path], whose sum is the one of [int], returns
    -2147483647. *)
Lemma max_odd_even_path_sum_overflow :
  shape_inv overflowing_parity
  /\ height overflowing_parity <> 0%nat
  /\ max_odd_even_path overflowing_parity = Return (-2147483647)
  /\ fold_triangle spec_leaf math_odd_even_combine overflowing_parity
     = Return 2147483649
  /\ max_odd_even_path overflowing_parity
     <> fold_triangle spec_leaf math_odd_even_combine overflowing_parity.
Proof.
  split; [apply shape_ok_inv; reflexivity|]. split; [discriminate|].
  split; [reflexivity|]. split; [reflexivity|].
  vm_compute. discriminate.
Qed.

(** With entries that are not negative and sums that fit, every entry of
    the accumulator of [max_odd_even_path] lies between 0 and the greatest
    sum of the paths from its position. *)
Lemma odd_even_below_ideal (rs : list Row) (k : nat) :
  rs <> [] -> tapers k rs ->
  (forall (row : Row) (v : Z), row ∈ rs -> v ∈ row -> 0 <= v) ->
  sums_fit k rs ->
  forall p : nat, (p <= k)%nat ->
    exists o i : Z,
      accum_from (fun i : Z => i)
        (fun i left right : Z =>
           int_add i (std_max (if is_even left then 0 else left)
                              (if is_even right then right else 0))) rs !! p
        = Some o
      /\ accum_from (fun v => v) ideal_combine rs !! p = Some i
      /\ 0 <= o <= i.
Proof.
  revert k. induction rs as [|row rs IH]; intros k Hne Hshape Hnn Hfit p Hp;
    [contradiction|].
  pose proof (Hshape 0%nat row eq_refl) as Hrow. rewrite Nat.add_0_r in Hrow.
  destruct (lookup_lt_is_Some_2 row p) as [v Hv]; [lia|].
  assert (Hv0 : 0 <= v).
  { apply (Hnn row v); [apply list_elem_of_here | eapply list_elem_of_lookup_2; eassumption]. }
  destruct rs as [|row2 rs].
  - simpl. rewrite !list_fmap_id. exists v, v. repeat split; try assumption; lia.
  - destruct (ideal_accum_greatest (row :: row2 :: rs) k Hne Hshape) as [_ Hall].
    destruct (Hall p Hp) as (m & Hm & Hgreatest).
    assert (Hrange : in_int_range m).
    { apply (Hfit 0%nat p m); [lia | simpl; lia | exact Hgreatest]. }
    assert (Hshape' : tapers (S k) (row2 :: rs)) by (eapply tapers_tail; eassumption).
    assert (Hnn' : forall (row : Row) (v : Z), row ∈ row2 :: rs -> v ∈ row -> 0 <= v).
    { intros r0 v0 Hr0. apply Hnn. apply list_elem_of_further. exact Hr0. }
    assert (Hfit' : sums_fit (S k) (row2 :: rs)) by (eapply sums_fit_tail; eassumption).
    destruct (IH (S k) ltac:(discriminate) Hshape' Hnn' Hfit' p ltac:(lia))
      as (ol & il & Hol & Hil & Hl).
    destruct (IH (S k) ltac:(discriminate) Hshape' Hnn' Hfit' (S p) ltac:(lia))
      as (or & ir & Hor & Hir & Hr).
    pose proof (accum_from_length (fun i : Z => i)
        (fun i left right : Z =>
           int_add i (std_max (if is_even left then 0 else left)
                              (if is_even right then right else 0)))
        (row2 :: rs) (S k) ltac:(discriminate) Hshape') as Hlen_o.
    pose proof (accum_from_length (fun v : Z => v) ideal_combine
        (row2 :: rs) (S k) ltac:(discriminate) Hshape') as Hlen_i.
    set (rs' := row2 :: rs) in *.
    change (accum_from (fun v => v) ideal_combine (row :: rs'))
      with (fresh_row ideal_combine row (accum_from (fun v => v) ideal_combine rs')) in *.
    match goal with
    | |- context [accum_from ?mk ?cb (row :: rs')] =>
        change (accum_from mk cb (row :: rs'))
          with (fresh_row cb row (accum_from mk cb rs'))
    end.
    rewrite fresh_row_lookup in Hm by lia.
    rewrite !fresh_row_lookup by lia.
    unfold recurrence_entry in *.
    rewrite Hv, Hol, Hor, Hil, Hir in *. simpl in *.
    injection Hm as Hm.
    eexists _, _. split; [reflexivity|]. split; [reflexivity|].
    unfold int_add, ideal_combine in *. rewrite std_max_max.
    rewrite wrap_int_id.
    + destruct (is_even ol), (is_even or); lia.
    + unfold in_int_range, INT_MIN, INT_MAX in *.
      destruct (is_even ol), (is_even or); lia.
Qed.

Lemma path_sum_nonnegative (rs : list Row) (cols : list nat) :
  (forall (row : Row) (v : Z), row ∈ rs -> v ∈ row -> 0 <= v) ->
  0 <= path_sum rs cols.
Proof.
  revert cols. induction rs as [|row rs IH]; intros cols Hnn; [reflexivity|].
  destruct cols as [|c cols]; [reflexivity|].
  change (path_sum (row :: rs) (c :: cols))
    with (default 0 (row !! c) + path_sum rs cols).
  assert (0 <= default 0 (row !! c)).
  { destruct (row !! c) as [v|] eqn:Hc; simpl; [|lia].
    apply (Hnn row v); [apply list_elem_of_here | eapply list_elem_of_lookup_2; eassumption]. }
  assert (0 <= path_sum rs cols).
  { apply IH. intros r0 v0 Hr0. apply Hnn. apply list_elem_of_further. exact Hr0. }
  lia.
Qed.

Lemma nonnegative_drop (t : Triangle) (r : nat) :
  nonnegative t ->
  forall (row : Row) (v : Z), row ∈ drop r (rows_ t) -> v ∈ row -> 0 <= v.
Proof.
  intros Hnn row v Hrow. apply Hnn.
  apply list_elem_of_lookup in Hrow as [i Hi]. rewrite lookup_drop in Hi.
  eapply list_elem_of_lookup_2. eassumption.
Qed.

(** With entries that are not negative, a path from an entry to the bottom
    row is the end of a path from the apex whose sum is no smaller. *)
Lemma extend_to_apex (t : Triangle) (r p : nat) (below : list nat) :
  nonnegative t ->
  (p <= r)%nat ->
  steps_ok p below = true ->
  S (r + length below) = height t ->
  exists cols : list nat,
    is_path t cols = true
    /\ path_sum (drop r (rows_ t)) (p :: below) <= path_sum (rows_ t) cols.
Proof.
  intros Hnn. revert p below.
  induction r as [|r IH]; intros p below Hp Hsteps Hlen.
  - assert (p = 0%nat) as -> by lia. exists (0%nat :: below). rewrite drop_0.
    split; [|lia]. apply is_path_inv. exists below. auto.
  - destruct (lookup_lt_is_Some_2 (rows_ t) r) as [row Hrow];
      [unfold height in Hlen; lia|].
    destruct (IH (Nat.min p r) (p :: below)) as (cols & Hpath & Hle).
    + lia.
    + apply steps_ok_cons. split; [lia | exact Hsteps].
    + simpl. lia.
    + exists cols. split; [exact Hpath|].
      rewrite (drop_S _ _ _ Hrow) in Hle.
      change (path_sum (row :: drop (S r) (rows_ t)) (Nat.min p r :: p :: below))
        with (default 0 (row !! Nat.min p r)
              + path_sum (drop (S r) (rows_ t)) (p :: below)) in Hle.
      assert (0 <= default 0 (row !! Nat.min p r)).
      { destruct (row !! Nat.min p r) as [v|] eqn:Hc; simpl; [|lia].
        apply (Hnn row v); eapply list_elem_of_lookup_2; eassumption. }
      lia.
Qed.

(** With entries that are not negative, the sums fit as soon as no path
    from the apex to the base has a sum above [INT_MAX]. *)
Lemma nonnegative_fit (t : Triangle) :
  nonnegative t ->
  (forall cols, is_path t cols = true -> path_sum (rows_ t) cols <= INT_MAX) ->
  sums_fit_int t.
Proof.
  intros Hnn Hmax r p m Hp Hr [[below (Hsteps & Hlen & <-)] _].
  rewrite length_drop in Hlen.
  destruct (extend_to_apex t r p below Hnn Hp Hsteps) as (cols & Hpath & Hle);
    [unfold height; lia|].
  pose proof (Hmax cols Hpath).
  pose proof (path_sum_nonnegative (drop r (rows_ t)) (p :: below)
                (nonnegative_drop t r Hnn)).
  unfold in_int_range, INT_MIN, INT_MAX in *. lia.
Qed.

Lemma entries_nonnegative_spec (t : Triangle) :
  entries_nonnegative t = true -> nonnegative t.
Proof.
  unfold entries_nonnegative, nonnegative. intros Hall row v Hrow Hv.
  rewrite forallb_forall in Hall.
  apply list_elem_of_In, Hall in Hrow. rewrite forallb_forall in Hrow.
  apply list_elem_of_In, Hrow in Hv. lia.
Qed.

(** C9, amended. On a Triangle with at least one row, entries that are not
    negative and no path from the apex to the base whose sum exceeds
    [INT_MAX], both evaluators return and the value of [max_odd_even_path]
    is at most the value of [max_path]. *)
Theorem max_odd_even_path_le_max_path (t : Triangle) :
  shape_inv t -> height t <> 0%nat ->
  nonnegative t ->
  (forall cols, is_path t cols = true -> path_sum (rows_ t) cols <= INT_MAX) ->
  exists a b : Z,
    max_odd_even_path t = Return a /\ max_path t = Return b /\ a <= b.
Proof.
  intros Hshape Hheight Hnn Hmax.
  pose proof (nonnegative_fit t Hnn Hmax) as Hfit.
  assert (Hne : rows_ t <> []).
  { intros Hnil. unfold height in Hheight. rewrite Hnil in Hheight. contradiction. }
  destruct (max_path_front t Hshape Hheight Hfit) as (b & Hb & Hhead).
  destruct (fold_triangle_returns
              (fun i : Z => i)
              (fun i left right : Z =>
                 int_add i (std_max (if is_even left then 0 else left)
                                    (if is_even right then right else 0)))
              t Hshape Hheight)
    as (bottom & uppers & a & Hrev & Hacc & Hfold & _).
  rewrite (fresh_rows_accum_from _ _ (rows_ t) bottom uppers Hrev) in Hacc.
  destruct (odd_even_below_ideal (rows_ t) 0 Hne Hshape Hnn Hfit 0%nat (Nat.le_refl 0))
    as (o & i & Ho & Hi & Hle).
  rewrite Hacc in Ho. injection Ho as <-.
  rewrite head_lookup, Hi in Hhead. injection Hhead as <-.
  exists a, i. split; [exact Hfold|]. split; [exact Hb | lia].
Qed.

Lemma max_odd_even_path_le_max_path_witness :
  shape_inv sample /\ height sample <> 0%nat /\ nonnegative sample
  /\ (forall cols, is_path sample cols = true ->
                   path_sum (rows_ sample) cols <= INT_MAX)
  /\ exists a b : Z,
       max_odd_even_path sample = Return a /\ max_path sample = Return b /\ a <= b.
Proof.
  assert (Hshape : shape_inv sample) by (apply shape_ok_inv; reflexivity).
  assert (Hheight : height sample <> 0%nat) by discriminate.
  assert (Hnn : nonnegative sample) by (apply entries_nonnegative_spec; reflexivity).
  assert (Hmax : forall cols, is_path sample cols = true ->
                              path_sum (rows_ sample) cols <= INT_MAX).
  { intros cols Hpath.
    pose proof (path_sum_bounded 9 (rows_ sample) cols ltac:(lia) eq_refl) as Hsum.
    simpl length in Hsum. unfold INT_MAX. lia. }
  split; [exact Hshape|]. split; [exact Hheight|]. split; [exact Hnn|].
  split; [exact Hmax|].
  exact (max_odd_even_path_le_max_path sample Hshape Hheight Hnn Hmax).
Defined.

(** C9 as stated fails where [max_path] leaves the range of [int]: on
    [[2],[2147483646,5]] the sum 2 + 2147483646 wraps around, while
    [max_odd_even_path], to which neither child contributes, returns 2. *)
Lemma max_odd_even_path_exceeds :
  shape_inv overflowing_even
  /\ height overflowing_even <> 0%nat
  /\ nonnegative overflowing_even
  /\ max_odd_even_path overflowing_even = Return 2
  /\ max_path overflowing_even = Return (-2147483648)
  /\ ~ (exists a b : Z,
          max_odd_even_path overflowing_even = Return a
          /\ max_path overflowing_even = Return b /\ a <= b).
Proof.
  split; [apply shape_ok_inv; reflexivity|]. split; [discriminate|].
  split; [apply entries_nonnegative_spec; reflexivity|].
  split; [reflexivity|]. split; [reflexivity|].
  intros (a & b & Ha & Hb & Hle).
  vm_compute in Ha, Hb. injection Ha as <-. injection Hb as <-. lia.
Qed.

(** ** The parser *)

Lemma getline_shorter (stream row_string rest : string) :
  getline stream = Some (row_string, rest) ->
  (String.length rest < String.length stream)%nat.
Proof.
  revert row_string rest.
  induction stream as [|c stream IH]; intros row_string rest H; simpl in H;
    [discriminate|].
  destruct (Ascii.eqb c newline).
  - injection H as _ <-. simpl. lia.
  - destruct (getline stream) as [[l r]|].
    + injection H as _ <-. specialize (IH l r eq_refl). simpl. lia.
    + injection H as _ <-. simpl. lia.
Qed.

(** [stream_lines] is what [getline] delivers, call after call. *)
Lemma stream_lines_getline (stream : string) :
  stream_lines stream =
    match getline stream with
    | None => []
    | Some (row_string, rest) => row_string :: stream_lines rest
    end.
Proof.
  induction stream as [|c stream IH]; [reflexivity|].
  simpl. destruct (Ascii.eqb c newline); [reflexivity|].
  rewrite IH. destruct (getline stream) as [[l r]|]; reflexivity.
Qed.

Lemma stream_lines_nil (stream : string) :
  stream_lines stream = [] <-> stream = EmptyString.
Proof.
  split; [|intros ->; reflexivity].
  destruct stream as [|c stream]; [reflexivity|].
  simpl. destruct (Ascii.eqb c newline); [discriminate|].
  destruct (stream_lines stream); discriminate.
Qed.

(** The loop of [parse_triangle] appends the row of each line in turn; the
    fuel, once it covers the length of the stream, plays no part. *)
Lemma parse_loop_lines (fuel : nat) (stream : string) (expected : nat)
    (triangle : Triangle) :
  (String.length stream <= fuel)%nat ->
  parse_loop fuel stream expected triangle =
    append_rows (read_row <$> stream_lines stream) triangle.
Proof.
  revert stream expected triangle.
  induction fuel as [|fuel IH]; intros stream expected triangle Hfuel.
  - destruct stream; [reflexivity | simpl in Hfuel; lia].
  - rewrite stream_lines_getline. simpl.
    destruct (getline stream) as [[row_string rest]|] eqn:Hline; [|reflexivity].
    apply getline_shorter in Hline.
    change (read_row <$> row_string :: stream_lines rest)
      with (read_row row_string :: (read_row <$> stream_lines rest)).
    simpl. destruct (append_row (read_row row_string) triangle) as [[u|e|] t'];
      try reflexivity.
    apply IH. lia.
Qed.

Lemma parse_triangle_lines (stream : string) :
  parse_triangle stream =
    append_rows (read_row <$> stream_lines stream) empty_triangle.
Proof. apply parse_loop_lines. reflexivity. Qed.

Lemma skipws_length (s : string) :
  (String.length (skipws s) <= String.length s)%nat.
Proof.
  induction s as [|c s IH]; simpl; [lia|].
  destruct (isspace c); simpl; lia.
Qed.

Lemma read_digits_length (s : string) (acc : Z) :
  (String.length (read_digits s acc).2 <= String.length s)%nat.
Proof.
  revert acc. induction s as [|c s IH]; intros acc; simpl; [lia|].
  destruct (isdigit c); simpl; [specialize (IH (10 * acc + digit_value c)) |]; lia.
Qed.

(** An extraction that succeeds consumes at least one character. *)
Lemma extract_int_shorter (row_stream : string) (value : Z) (rest : string) :
  extract_int row_stream = Some (value, rest) ->
  (String.length rest < String.length row_stream)%nat.
Proof.
  unfold extract_int. pose proof (skipws_length row_stream) as Hws.
  set (s := skipws row_stream) in *. intros H.
  assert (Hdigits : forall (negative : bool) (s' : string),
             (String.length s' <= String.length s)%nat ->
             match s' with
             | EmptyString => None
             | String c _ =>
                 if isdigit c then
                   let '(magnitude, rest) := read_digits s' 0 in
                   let value := if negative then - magnitude else magnitude in
                   if (INT_MIN <=? value) && (value <=? INT_MAX)
                   then Some (value, rest) else None
                 else None
             end = Some (value, rest) ->
             (String.length rest < String.length row_stream)%nat).
  { intros negative s' Hs' Hs.
    destruct s' as [|c s']; [discriminate|].
    destruct (isdigit c) eqn:Hc; [|discriminate].
    simpl in Hs. rewrite Hc in Hs.
    pose proof (read_digits_length s' (10 * 0 + digit_value c)) as Hrd.
    destruct (read_digits s' (10 * 0 + digit_value c)) as [magnitude rest'].
    simpl in Hrd.
    destruct ((INT_MIN <=? (if negative then - magnitude else magnitude))
              && ((if negative then - magnitude else magnitude) <=? INT_MAX));
      [|discriminate].
    injection Hs as _ <-. simpl in Hs'. lia. }
  destruct s as [|c s'] eqn:Hs.
  - discriminate.
  - destruct (Ascii.eqb_spec c "-"%char) as [->|Hminus].
    + apply (Hdigits true s'); [simpl; lia | exact H].
    + destruct (Ascii.eqb_spec c "+"%char) as [->|Hplus].
      * apply (Hdigits false s'); [simpl; lia | exact H].
      * apply (Hdigits false (String c s')); [lia|].
        destruct c as [[] [] [] [] [] [] [] []]; try exact H; contradiction.
Qed.

(** The fuel of [read_values], once it covers the length of the stream,
    plays no part. *)
Lemma read_values_fuel (fuel fuel' : nat) (row_stream : string) (row : Row) :
  (String.length row_stream <= fuel)%nat ->
  (String.length row_stream <= fuel')%nat ->
  read_values fuel row_stream row = read_values fuel' row_stream row.
Proof.
  revert fuel' row_stream row.
  induction fuel as [|fuel IH]; intros fuel' row_stream row Hfuel Hfuel'.
  - destruct row_stream; [|simpl in Hfuel; lia]. destruct fuel'; reflexivity.
  - destruct fuel' as [|fuel'].
    + destruct row_stream; [reflexivity | simpl in Hfuel'; lia].
    + simpl. destruct (extract_int row_stream) as [[value rest]|] eqn:Hx; [|reflexivity].
      apply extract_int_shorter in Hx. apply IH; lia.
Qed.

Lemma append_rows_rejects (rs : list Row) (t : Triangle) (k : nat) (row : Row) :
  rs !! k = Some row ->
  length row <> S (height t + k) ->
  append_rows rs t = Throw InvalidShape.
Proof.
  revert t k. induction rs as [|r0 rs IH]; intros t k Hk Hbad; [discriminate|].
  simpl. unfold append_row.
  destruct (Nat.eqb_spec (length r0) (height t + 1)) as [Hlen|Hlen]; simpl;
    [|reflexivity].
  destruct k as [|k]; simpl in Hk.
  - injection Hk as ->. lia.
  - apply (IH _ k Hk). unfold height in *. simpl. rewrite length_app. simpl. lia.
Qed.

Lemma append_rows_accepts (rs : list Row) (t : Triangle) :
  (forall (k : nat) (row : Row),
      rs !! k = Some row -> length row = S (height t + k)) ->
  append_rows rs t = Return {| rows_ := rows_ t ++ rs |}.
Proof.
  revert t. induction rs as [|r0 rs IH]; intros t Hall; simpl.
  - rewrite app_nil_r. destruct t; reflexivity.
  - unfold append_row. pose proof (Hall 0%nat r0 eq_refl) as H0.
    destruct (Nat.eqb_spec (length r0) (height t + 1)) as [Hlen|Hlen]; [|lia].
    simpl. rewrite IH.
    + simpl. rewrite <- app_assoc. reflexivity.
    + intros k row Hk. rewrite (Hall (S k) row Hk).
      unfold height. simpl. rewrite length_app. simpl. lia.
Qed.

(** An input whose every line [k] yields [k] values parses to the Triangle
    of those rows. *)
Lemma parse_triangle_accepts (stream : string) :
  (forall (k : nat) (line : string),
      stream_lines stream !! k = Some line -> length (read_row line) = S k) ->
  parse_triangle stream = Return {| rows_ := read_row <$> stream_lines stream |}.
Proof.
  intros Hall. rewrite parse_triangle_lines, append_rows_accepts; [reflexivity|].
  intros k row Hk. rewrite list_lookup_fmap in Hk.
  destruct (stream_lines stream !! k) as [line|] eqn:Hline; [|discriminate].
  injection Hk as <-. exact (Hall k line Hline).
Qed.

(** C8. When some line [k], counted from 1, of the input does not yield
    exactly [k] values, [parse_triangle] throws the [InvalidShape] error
    and returns no Triangle. *)
Theorem parse_triangle_rejects (stream : string) (k : nat) (line : string) :
  (1 <= k)%nat ->
  stream_lines stream !! (k - 1)%nat = Some line ->
  length (read_row line) <> k ->
  parse_triangle stream = Throw InvalidShape
  /\ forall t : Triangle, parse_triangle stream <> Return t.
Proof.
  intros Hk Hline Hbad.
  assert (Hthrow : parse_triangle stream = Throw InvalidShape).
  { rewrite parse_triangle_lines.
    apply (append_rows_rejects _ _ (k - 1) (read_row line)).
    - rewrite list_lookup_fmap, Hline. reflexivity.
    - simpl. lia. }
  split; [exact Hthrow|]. intros t. rewrite Hthrow. discriminate.
Qed.

Lemma parse_triangle_rejects_witness :
  (1 <= 2)%nat
  /\ stream_lines ("1" ++ endl ++ "2 x 3" ++ endl ++ "4 5 6" ++ endl)%string !! (2 - 1)%nat
     = Some "2 x 3"%string
  /\ length (read_row "2 x 3"%string) <> 2%nat
  /\ parse_triangle ("1" ++ endl ++ "2 x 3" ++ endl ++ "4 5 6" ++ endl)%string
     = Throw InvalidShape
  /\ forall t : Triangle,
       parse_triangle ("1" ++ endl ++ "2 x 3" ++ endl ++ "4 5 6" ++ endl)%string
       <> Return t.
Proof.
  split; [lia|]. split; [reflexivity|]. split; [vm_compute; discriminate|].
  apply (parse_triangle_rejects _ 2 "2 x 3"%string);
    [lia | reflexivity | vm_compute; discriminate].
Defined.

(** C10. An input with no line parses to a Triangle of height 0, on which
    [max_path] throws the [EmptyTriangle] error; the exception leaves
    [main], which prints no result. *)
Theorem empty_input_unhandled (stream : string) :
  stream_lines stream = [] ->
  exists t : Triangle,
    parse_triangle stream = Return t
    /\ height t = 0%nat
    /\ max_path t = Throw EmptyTriangle
    /\ main (Some stream) = Throw EmptyTriangle.
Proof.
  intros Hlines. apply stream_lines_nil in Hlines as ->.
  exists empty_triangle. repeat split.
Qed.

Lemma empty_input_unhandled_witness :
  stream_lines EmptyString = []
  /\ exists t : Triangle,
       parse_triangle EmptyString = Return t
       /\ height t = 0%nat
       /\ max_path t = Throw EmptyTriangle
       /\ main (Some EmptyString) = Throw EmptyTriangle.
Proof.
  split; [reflexivity|]. apply (empty_input_unhandled EmptyString). reflexivity.
Defined.

(** ** Runs of the program *)

Example sample_parse : parse_triangle sample_text = Return sample.
Proof. vm_compute. reflexivity. Qed.

Example sample_lines :
  stream_lines sample_text = ["3"; "7 4"; "2 4 6"; "8 5 9 3"]%string.
Proof. vm_compute. reflexivity. Qed.

(** Signs, leading zeros, and the end of a row at the first token that is
    not a number or does not fit an [int]. *)
Example read_row_tokens :
  read_row "  -12 +7 0012 -2147483648 2147483647 5x 6"%string
    = [-12; 7; 12; -2147483648; 2147483647; 5]
  /\ read_row "1 2147483648 3"%string = [1].
Proof. split; vm_compute; reflexivity. Qed.

Example sample_main :
  main (Some sample_text) =
    Return {| status := 0;
              cout := ("Loaded triangle with 4 rows. " ++ endl
                       ++ "The maximum path value is 23." ++ endl
                       ++ "If you may only move left onto an odd number or right onto an even number, the"
                       ++ endl ++ "maximum path value is 10." ++ endl)%string;
              cerr := EmptyString |}.
Proof. vm_compute. reflexivity. Qed.

Example main_no_file :
  main None =
    Return {| status := 1; cout := EmptyString;
              cerr := ("Failed to open p067_triangle.txt" ++ endl)%string |}.
Proof. reflexivity. Qed.

(** A Triangle of one row folds to the leaf of its entry, whatever the
    combining function. *)
Example fold_one_row {T : Type} (make_t : Z -> T) (combine_t : Z -> T -> T -> T)
    (v : Z) :
  fold_triangle make_t combine_t {| rows_ := [[v]] |} = Return (make_t v).
Proof. reflexivity. Qed.

(** An even left child and an odd right child both contribute 0. *)
Example odd_even_no_contribution :
  max_odd_even_path {| rows_ := [[2]; [4; 5]] |} = Return 2.
Proof. reflexivity. Qed.

(** The 0 of a child that fails its test takes part in the maximum: it
    wins over a negative odd left child. *)
Example odd_even_zero_compared :
  max_odd_even_path {| rows_ := [[1]; [-3; 5]] |} = Return 1
  /\ spec_odd_even_combine 1 (-3) 5 = 1.
Proof. split; reflexivity. Qed.

(** * Further properties of the code *)

(** ** Access to the entries *)

(** X1. On a Triangle that has the class invariant, [at(r, n)] returns an
    entry exactly when [r < height()] and [n <= r]; everywhere else the
    access has no defined behaviour, in particular at [n = r + 1]. *)
Theorem at_defined_iff (t : Triangle) (r n : nat) :
  shape_inv t ->
  ((exists v : Z, at_ t r n = Return v) <-> (r < height t)%nat /\ (n <= r)%nat)
  /\ (at_ t r n = Undefined <-> ~ ((r < height t)%nat /\ (n <= r)%nat))
  /\ at_ t r (S r) = Undefined.
Proof.
  intros Hshape.
  assert (Hcases : ((r < height t)%nat /\ (n <= r)%nat
                    /\ exists v : Z, at_ t r n = Return v)
                   \/ (~ ((r < height t)%nat /\ (n <= r)%nat)
                       /\ at_ t r n = Undefined)).
  { unfold at_. destruct (rows_ t !! r) as [row|] eqn:Hrow.
    - pose proof (Hshape r row Hrow) as Hlen.
      pose proof (lookup_lt_Some _ _ _ Hrow) as Hr.
      destruct (row !! n) as [v|] eqn:Hn.
      + apply lookup_lt_Some in Hn. left. unfold height.
        split; [lia|]. split; [lia | eauto].
      + apply lookup_ge_None_1 in Hn. right. split; [lia | reflexivity].
    - apply lookup_ge_None_1 in Hrow. right. unfold height.
      split; [lia | reflexivity]. }
  split; [|split].
  - destruct Hcases as [(Hr & Hn & Hv)|[Hout Hu]].
    + split; auto.
    + split; [intros [v Hv]; rewrite Hu in Hv; discriminate | contradiction].
  - destruct Hcases as [(Hr & Hn & [v Hv])|[Hout Hu]].
    + rewrite Hv. split; [discriminate | intros Hout; exfalso; auto].
    + split; auto.
  - unfold at_. destruct (rows_ t !! r) as [row|] eqn:Hrow; [|reflexivity].
    rewrite (lookup_ge_None_2 row (S r)); [reflexivity|].
    rewrite (Hshape r row Hrow). lia.
Qed.

Lemma at_defined_iff_witness :
  shape_inv sample
  /\ ((exists v : Z, at_ sample 2 1 = Return v) <-> (2 < height sample)%nat /\ (1 <= 2)%nat)
  /\ (at_ sample 2 1 = Undefined <-> ~ ((2 < height sample)%nat /\ (1 <= 2)%nat))
  /\ at_ sample 2 3 = Undefined.
Proof.
  assert (Hshape : shape_inv sample) by (apply shape_ok_inv; reflexivity).
  split; [exact Hshape|]. exact (at_defined_iff sample 2 1 Hshape).
Defined.

(** X2. After an assignment through [at(r, n)] that is defined, [at(r, n)]
    reads the value assigned, every other position reads what it read
    before, and no row has changed its length. *)
Theorem at_assign_then_at (t t' : Triangle) (r n : nat) (v : Z) :
  at_assign r n v t = (Return tt, t') ->
  at_ t' r n = Return v
  /\ (forall r' n' : nat, (r', n') <> (r, n) -> at_ t' r' n' = at_ t r' n')
  /\ length <$> rows t' = length <$> rows t.
Proof.
  unfold at_assign. destruct (rows_ t !! r) as [row|] eqn:Hrow; [|discriminate].
  destruct (row !! n) as [old|] eqn:Hn; [|discriminate].
  intros H. injection H as <-.
  pose proof (lookup_lt_Some _ _ _ Hrow) as Hr.
  pose proof (lookup_lt_Some _ _ _ Hn) as Hlt.
  split; [|split].
  - unfold at_. simpl. rewrite list_lookup_insert_eq by assumption.
    rewrite list_lookup_insert_eq by assumption. reflexivity.
  - intros r' n' Hne. unfold at_. simpl.
    destruct (decide (r = r')) as [<-|Hr'].
    + rewrite list_lookup_insert_eq, Hrow by assumption.
      rewrite list_lookup_insert_ne by congruence. reflexivity.
    + rewrite list_lookup_insert_ne by assumption. reflexivity.
  - unfold rows. simpl. apply list_eq. intros i.
    rewrite !list_lookup_fmap.
    destruct (decide (r = i)) as [<-|Hi].
    + rewrite list_lookup_insert_eq, Hrow by assumption. simpl.
      rewrite length_insert. reflexivity.
    + rewrite list_lookup_insert_ne by assumption. reflexivity.
Qed.

Lemma at_assign_then_at_witness :
  at_assign 2 1 40 sample
    = (Return tt, {| rows_ := [[3]; [7; 4]; [2; 40; 6]; [8; 5; 9; 3]] |})
  /\ at_ {| rows_ := [[3]; [7; 4]; [2; 40; 6]; [8; 5; 9; 3]] |} 2 1 = Return 40
  /\ (forall r' n' : nat, (r', n') <> (2, 1)%nat ->
        at_ {| rows_ := [[3]; [7; 4]; [2; 40; 6]; [8; 5; 9; 3]] |} r' n'
        = at_ sample r' n')
  /\ length <$> rows {| rows_ := [[3]; [7; 4]; [2; 40; 6]; [8; 5; 9; 3]] |}
     = length <$> rows sample.
Proof.
  split; [reflexivity|].
  apply (at_assign_then_at sample _ 2 1 40). reflexivity.
Defined.

(** X3. On a Triangle that has the class invariant, [width()] is the size
    of the bottom row. *)
Theorem width_bottom_row (t : Triangle) (bottom : Row) :
  shape_inv t ->
  last (rows t) = Some bottom ->
  length bottom = width t.
Proof.
  intros Hshape Hlast. unfold width, height, rows in *.
  rewrite last_lookup in Hlast.
  pose proof (lookup_lt_Some _ _ _ Hlast) as Hlt.
  rewrite (Hshape _ _ Hlast). lia.
Qed.

Lemma width_bottom_row_witness :
  shape_inv sample /\ last (rows sample) = Some [8; 5; 9; 3]
  /\ length [8; 5; 9; 3] = width sample.
Proof.
  assert (Hshape : shape_inv sample) by (apply shape_ok_inv; reflexivity).
  split; [exact Hshape|]. split; [reflexivity|].
  exact (width_bottom_row sample [8; 5; 9; 3] Hshape eq_refl).
Defined.

Lemma run_append_rows (rs : list Row) (t : Triangle) :
  (forall (k : nat) (row : Row),
      rs !! k = Some row -> length row = S (height t + k)) ->
  run_ops (AppendRow <$> rs) t = Some {| rows_ := rows_ t ++ rs |}.
Proof.
  revert t. induction rs as [|r0 rs IH]; intros t Hall.
  - simpl. rewrite app_nil_r. destruct t; reflexivity.
  - change (AppendRow <$> r0 :: rs) with (AppendRow r0 :: (AppendRow <$> rs)).
    simpl. unfold append_row. pose proof (Hall 0%nat r0 eq_refl) as H0.
    destruct (Nat.eqb_spec (length r0) (height t + 1)) as [Hlen|Hlen]; [|lia].
    simpl. rewrite IH.
    + simpl. rewrite <- app_assoc. reflexivity.
    + intros k row Hk. rewrite (Hall (S k) row Hk).
      unfold height. simpl. rewrite length_app. simpl. lia.
Qed.

(** X4. The class invariant is all that the interface enforces: a Triangle
    has it exactly when some sequence of operations builds it from the
    empty Triangle, and appending its rows one by one is such a
    sequence. *)
Theorem shape_inv_iff_reachable (t : Triangle) :
  (shape_inv t <-> exists ops : list operation, run_ops ops empty_triangle = Some t)
  /\ (shape_inv t -> run_ops (AppendRow <$> rows t) empty_triangle = Some t).
Proof.
  assert (Hbuild : shape_inv t ->
                   run_ops (AppendRow <$> rows t) empty_triangle = Some t).
  { intros Hshape. rewrite run_append_rows.
    - destruct t; reflexivity.
    - intros k row Hk. exact (Hshape k row Hk). }
  split; [|exact Hbuild]. split.
  - intros Hshape. eexists. exact (Hbuild Hshape).
  - intros [ops Hops]. exact (run_ops_shape ops empty_triangle t empty_shape Hops).
Qed.

(** ** What the parser accepts *)

(** [extract_int] with the test of the sign written with [Ascii.eqb]. *)
Lemma extract_int_sign (row_stream : string) :
  extract_int row_stream =
    match skipws row_stream with
    | EmptyString => None
    | String c s' =>
        if Ascii.eqb c "-" then extract_digits true s'
        else if Ascii.eqb c "+" then extract_digits false s'
        else extract_digits false (String c s')
    end.
Proof.
  unfold extract_int. destruct (skipws row_stream) as [|c s']; [reflexivity|].
  destruct c as [[] [] [] [] [] [] [] []]; reflexivity.
Qed.

Lemma extract_digits_range (negative : bool) (s : string) (value : Z) (rest : string) :
  extract_digits negative s = Some (value, rest) -> in_int_range value.
Proof.
  unfold extract_digits. destruct s as [|c s']; [discriminate|].
  destruct (isdigit c); [|discriminate].
  destruct (read_digits (String c s') 0) as [magnitude rest'].
  destruct ((INT_MIN <=? (if negative then - magnitude else magnitude))
            && ((if negative then - magnitude else magnitude) <=? INT_MAX)) eqn:Hr;
    [|discriminate].
  intros H. injection H as <- _. unfold in_int_range. lia.
Qed.

Lemma extract_int_range (row_stream : string) (value : Z) (rest : string) :
  extract_int row_stream = Some (value, rest) -> in_int_range value.
Proof.
  rewrite extract_int_sign. destruct (skipws row_stream) as [|c s']; [discriminate|].
  destruct (Ascii.eqb c "-"); [apply extract_digits_range|].
  destruct (Ascii.eqb c "+"); apply extract_digits_range.
Qed.

Lemma read_values_range (fuel : nat) (row_stream : string) (row : Row) :
  Forall in_int_range row ->
  Forall in_int_range (read_values fuel row_stream row).
Proof.
  revert row_stream row. induction fuel as [|fuel IH]; intros row_stream row Hrow;
    [exact Hrow|].
  simpl. destruct (extract_int row_stream) as [[value rest]|] eqn:Hx; [|exact Hrow].
  apply IH. apply Forall_app. split; [exact Hrow|].
  apply Forall_singleton. exact (extract_int_range _ _ _ Hx).
Qed.

(** The two ends of [append_rows]: every row has the size the Triangle
    expects and all are appended, or one has not and [InvalidShape] is
    thrown. *)
Lemma append_rows_cases (rs : list Row) (t : Triangle) :
  (append_rows rs t = Return {| rows_ := rows_ t ++ rs |}
   /\ forall (k : nat) (row : Row),
        rs !! k = Some row -> length row = S (height t + k))
  \/ (append_rows rs t = Throw InvalidShape
      /\ exists (k : nat) (row : Row),
           rs !! k = Some row /\ length row <> S (height t + k)).
Proof.
  revert t. induction rs as [|r0 rs IH]; intros t.
  - left. split; [|intros k row Hk; discriminate].
    simpl. rewrite app_nil_r. destruct t; reflexivity.
  - simpl. unfold append_row.
    destruct (Nat.eqb_spec (length r0) (height t + 1)) as [Hlen|Hlen]; simpl.
    + destruct (IH {| rows_ := rows_ t ++ [r0] |}) as [[Hret Hall]|[Hthrow Hbad]].
      * left. split.
        { rewrite Hret. simpl. rewrite <- app_assoc. reflexivity. }
        { intros [|k] row Hk; simpl in Hk.
          - injection Hk as <-. lia.
          - rewrite (Hall k row Hk). unfold height. simpl.
            rewrite length_app. simpl. lia. }
      * right. split; [exact Hthrow|].
        destruct Hbad as (k & row & Hk & Hne). exists (S k), row.
        split; [exact Hk|]. unfold height in *. simpl in Hne.
        rewrite length_app in Hne. simpl in Hne. lia.
    + right. split; [reflexivity|]. exists 0%nat, r0.
      split; [reflexivity | lia].
Qed.

Lemma parse_triangle_returns (stream : string) (t : Triangle) :
  parse_triangle stream = Return t <->
  lines_well_formed stream
  /\ t = {| rows_ := read_row <$> stream_lines stream |}.
Proof.
  rewrite parse_triangle_lines.
  destruct (append_rows_cases (read_row <$> stream_lines stream) empty_triangle)
    as [[Hret Hall]|[Hthrow (k & row & Hk & Hne)]].
  - rewrite Hret. simpl.
    assert (Hwf : lines_well_formed stream).
    { intros k line Hline. apply (Hall k).
      rewrite list_lookup_fmap, Hline. reflexivity. }
    split.
    + intros H. injection H as <-. split; [exact Hwf | reflexivity].
    + intros [_ ->]. reflexivity.
  - rewrite Hthrow. split; [discriminate|].
    intros [Hwf _]. exfalso. apply Hne.
    rewrite list_lookup_fmap in Hk.
    destruct (stream_lines stream !! k) as [line|] eqn:Hline; [|discriminate].
    injection Hk as <-. exact (Hwf k line Hline).
Qed.

(** X5. [parse_triangle] returns a Triangle exactly when every line [k] of
    the input, counted from 1, yields [k] values, and the Triangle it
    returns holds the values of line [k] as its row [k]. *)
Theorem parse_triangle_returns_iff (stream : string) (t : Triangle) :
  parse_triangle stream = Return t <->
  lines_well_formed stream
  /\ t = {| rows_ := read_row <$> stream_lines stream |}.
Proof. exact (parse_triangle_returns stream t). Qed.

Lemma read_row_range (row_string : string) :
  Forall in_int_range (read_row row_string).
Proof. apply read_values_range. constructor. Qed.

(** X6. A Triangle that [parse_triangle] returns has the class invariant,
    as many rows as the input has lines, and only entries that are
    [int]s. *)
Theorem parse_triangle_result (stream : string) (t : Triangle) :
  parse_triangle stream = Return t ->
  shape_inv t
  /\ height t = length (stream_lines stream)
  /\ entries_int t.
Proof.
  intros Hparse. apply parse_triangle_returns in Hparse as [Hwf ->].
  split; [|split].
  - intros i row Hi. simpl in Hi. rewrite list_lookup_fmap in Hi.
    destruct (stream_lines stream !! i) as [line|] eqn:Hline; [|discriminate].
    injection Hi as <-. exact (Hwf i line Hline).
  - unfold height. simpl. apply length_fmap.
  - intros row v Hrow Hv. simpl in Hrow.
    apply list_elem_of_fmap in Hrow as (line & -> & _).
    pose proof (read_row_range line) as Hall.
    rewrite Forall_forall in Hall. exact (Hall v Hv).
Qed.

Lemma parse_triangle_result_witness :
  parse_triangle sample_text = Return sample
  /\ shape_inv sample
  /\ height sample = length (stream_lines sample_text)
  /\ entries_int sample.
Proof.
  assert (Hparse : parse_triangle sample_text = Return sample)
    by (vm_compute; reflexivity).
  split; [exact Hparse|]. exact (parse_triangle_result sample_text sample Hparse).
Defined.

Lemma stream_lines_final_newline (s : string) (c : ascii) :
  c <> newline ->
  stream_lines (s ++ String c endl) = stream_lines (s ++ String c EmptyString).
Proof.
  intros Hc. induction s as [|a s IH]; simpl.
  - destruct (Ascii.eqb_spec c newline); [contradiction | reflexivity].
  - rewrite IH. reflexivity.
Qed.

(** X7. The newline after the last line is optional: an input that ends
    in another character parses to the same outcome with and without a
    final newline. *)
Theorem parse_triangle_final_newline (s : string) (c : ascii) :
  c <> newline ->
  parse_triangle (s ++ String c endl) = parse_triangle (s ++ String c EmptyString).
Proof.
  intros Hc. rewrite !parse_triangle_lines, stream_lines_final_newline by assumption.
  reflexivity.
Qed.

Lemma parse_triangle_final_newline_witness :
  "3"%char <> newline
  /\ parse_triangle ("1" ++ endl ++ "2 " ++ String "3" endl)%string
     = parse_triangle ("1" ++ endl ++ "2 " ++ String "3" EmptyString)%string.
Proof.
  assert (Hc : "3"%char <> newline) by discriminate.
  split; [exact Hc|].
  exact (parse_triangle_final_newline ("1" ++ endl ++ "2 ")%string "3" Hc).
Defined.

Lemma read_row_blank (line : string) : blank line = true -> read_row line = [].
Proof.
  intros Hblank. unfold read_row.
  destruct (String.length line); [reflexivity|]. simpl.
  rewrite extract_int_sign.
  assert (Hskip : skipws line = EmptyString).
  { induction line as [|c line IH]; [reflexivity|].
    simpl in *. apply andb_true_iff in Hblank as [-> Hrest]. exact (IH Hrest). }
  rewrite Hskip. reflexivity.
Qed.

(** X8. A line that holds nothing but whitespace, wherever it stands in
    the input and also after the last row, makes [parse_triangle] throw the
    [InvalidShape] error. *)
Theorem parse_triangle_blank_line (stream : string) (k : nat) (line : string) :
  stream_lines stream !! k = Some line ->
  blank line = true ->
  parse_triangle stream = Throw InvalidShape.
Proof.
  intros Hline Hblank. rewrite parse_triangle_lines.
  apply (append_rows_rejects _ _ k (read_row line)).
  - rewrite list_lookup_fmap, Hline. reflexivity.
  - rewrite (read_row_blank line Hblank). discriminate.
Qed.

Lemma parse_triangle_blank_line_witness :
  stream_lines ("1" ++ endl ++ "2 3" ++ endl ++ endl)%string !! 2%nat
    = Some EmptyString
  /\ blank EmptyString = true
  /\ parse_triangle ("1" ++ endl ++ "2 3" ++ endl ++ endl)%string
     = Throw InvalidShape.
Proof.
  split; [reflexivity|]. split; [reflexivity|].
  exact (parse_triangle_blank_line ("1" ++ endl ++ "2 3" ++ endl ++ endl)%string
           2 EmptyString eq_refl eq_refl).
Defined.

Lemma string_length_app (s1 s2 : string) :
  String.length (s1 ++ s2) = (String.length s1 + String.length s2)%nat.
Proof. induction s1 as [|a s1 IH]; simpl; [reflexivity | rewrite IH; reflexivity]. Qed.

Lemma skipws_app_stop (s1 : string) (c : ascii) (s2 : string) :
  isspace c = false ->
  skipws (s1 ++ String c s2) = (skipws s1 ++ String c s2)%string.
Proof.
  intros Hc. induction s1 as [|a s1 IH]; simpl.
  - rewrite Hc. reflexivity.
  - destruct (isspace a); [exact IH | reflexivity].
Qed.

Lemma read_digits_app_stop (u : string) (c : ascii) (s2 : string) (acc : Z) :
  isdigit c = false ->
  read_digits (u ++ String c s2) acc =
    ((read_digits u acc).1, ((read_digits u acc).2 ++ String c s2)%string).
Proof.
  intros Hc. revert acc. induction u as [|a u IH]; intros acc; simpl.
  - rewrite Hc. reflexivity.
  - destruct (isdigit a); [apply IH | reflexivity].
Qed.

Lemma extract_digits_app_stop (negative : bool) (u : string) (c : ascii) (s2 : string) :
  isdigit c = false ->
  extract_digits negative (u ++ String c s2)
  = put_back (String c s2) (extract_digits negative u).
Proof.
  intros Hc. destruct u as [|a u]; simpl.
  - rewrite Hc. reflexivity.
  - destruct (isdigit a) eqn:Ha; [|reflexivity].
    rewrite (read_digits_app_stop u c s2 _ Hc).
    destruct (read_digits u (10 * 0 + digit_value a)) as [magnitude rest]. simpl.
    destruct ((INT_MIN <=? (if negative then - magnitude else magnitude))
              && ((if negative then - magnitude else magnitude) <=? INT_MAX));
      reflexivity.
Qed.

(** A character that is neither whitespace, a digit nor a sign stays in
    the stream: the extraction before it is the one of the text before
    it. *)
Lemma extract_int_app_stop (s1 : string) (c : ascii) (s2 : string) :
  isspace c = false -> isdigit c = false ->
  c <> "-"%char -> c <> "+"%char ->
  extract_int (s1 ++ String c s2) = put_back (String c s2) (extract_int s1).
Proof.
  intros Hspace Hdigit Hminus Hplus.
  rewrite !extract_int_sign, skipws_app_stop by assumption.
  destruct (skipws s1) as [|a u]; simpl.
  - destruct (Ascii.eqb_spec c "-"); [contradiction|].
    destruct (Ascii.eqb_spec c "+"); [contradiction|].
    rewrite Hdigit. reflexivity.
  - destruct (Ascii.eqb a "-"); [apply extract_digits_app_stop; assumption|].
    destruct (Ascii.eqb a "+"); [apply extract_digits_app_stop; assumption|].
    apply (extract_digits_app_stop false (String a u)). assumption.
Qed.

Lemma read_values_app_stop (c : ascii) (s2 : string) (fuel fuel' : nat)
    (s1 : string) (row : Row) :
  isspace c = false -> isdigit c = false ->
  c <> "-"%char -> c <> "+"%char ->
  (String.length (s1 ++ String c s2) <= fuel)%nat ->
  (String.length s1 <= fuel')%nat ->
  read_values fuel (s1 ++ String c s2) row = read_values fuel' s1 row.
Proof.
  intros Hspace Hdigit Hminus Hplus.
  revert fuel' s1 row.
  induction fuel as [|fuel IH]; intros fuel' s1 row Hfuel Hfuel'.
  - rewrite string_length_app in Hfuel. simpl in Hfuel. lia.
  - simpl. rewrite extract_int_app_stop by assumption.
    destruct (extract_int s1) as [[value rest]|] eqn:Hx; simpl.
    + pose proof (extract_int_shorter _ _ _ Hx) as Hshort.
      destruct fuel' as [|fuel']; [lia|]. simpl. rewrite Hx.
      apply IH; [|lia].
      rewrite string_length_app in *. simpl in *. lia.
    + destruct fuel'; simpl; rewrite ?Hx; reflexivity.
Qed.

(** X9. A row ends at the first character that is neither whitespace, a
    digit nor a sign: the values of a line are those of the text before
    that character, and nothing after it is read. *)
Theorem read_row_stops (s1 : string) (c : ascii) (s2 : string) :
  isspace c = false -> isdigit c = false ->
  c <> "-"%char -> c <> "+"%char ->
  read_row (s1 ++ String c s2) = read_row s1.
Proof.
  intros Hspace Hdigit Hminus Hplus. unfold read_row.
  apply read_values_app_stop; auto.
Qed.

Lemma read_row_stops_witness :
  isspace "x" = false /\ isdigit "x" = false
  /\ "x"%char <> "-"%char /\ "x"%char <> "+"%char
  /\ read_row ("1 2 " ++ String "x" " 3 4")%string = read_row "1 2 "%string.
Proof.
  assert (Hminus : "x"%char <> "-"%char) by discriminate.
  assert (Hplus : "x"%char <> "+"%char) by discriminate.
  split; [reflexivity|]. split; [reflexivity|].
  split; [exact Hminus|]. split; [exact Hplus|].
  exact (read_row_stops "1 2 " "x" " 3 4" eq_refl eq_refl Hminus Hplus).
Defined.

(** ** The runs of [main] *)

Lemma errors_differ : InvalidShape <> EmptyTriangle.
Proof. discriminate. Qed.

Lemma Throw_inj {A : Type} (e e' : exception) :
  @Throw A e = Throw e' -> e = e'.
Proof. intros H. injection H as ->. reflexivity. Qed.

Lemma evaluators_return (t : Triangle) :
  shape_inv t -> height t <> 0%nat ->
  exists a b : Z, max_path t = Return a /\ max_odd_even_path t = Return b.
Proof.
  intros Hshape Hheight.
  destruct (fold_triangle_returns
              (fun i : Z => i)
              (fun i left right : Z => int_add i (std_max left right))
              t Hshape Hheight) as (_ & _ & a & _ & _ & Ha & _).
  destruct (fold_triangle_returns
              (fun i : Z => i)
              (fun i left right : Z =>
                 int_add i (std_max (if is_even left then 0 else left)
                                    (if is_even right then right else 0)))
              t Hshape Hheight) as (_ & _ & b & _ & _ & Hb & _).
  exists a, b. split; assumption.
Qed.

(** The outcomes of [main] in the model, where the sums of [int] wrap
    around. *)
Lemma main_cases (stream : string) :
  (stream_lines stream = [] /\ main (Some stream) = Throw EmptyTriangle)
  \/ (stream_lines stream <> [] /\ lines_well_formed stream
      /\ exists e : exit, main (Some stream) = Return e
                          /\ status e = 0 /\ cerr e = EmptyString)
  \/ (~ lines_well_formed stream /\ main (Some stream) = Throw InvalidShape).
Proof.
  unfold main. rewrite parse_triangle_lines.
  destruct (append_rows_cases (read_row <$> stream_lines stream) empty_triangle)
    as [[Hret Hall]|[Hthrow (k & row & Hk & Hne)]].
  - rewrite Hret. simpl app.
    assert (Hwf : lines_well_formed stream).
    { intros k line Hline. apply (Hall k).
      rewrite list_lookup_fmap, Hline. reflexivity. }
    destruct (stream_lines stream) as [|line lines] eqn:Hlines.
    + left. split; reflexivity.
    + right. left. split; [discriminate|]. split; [exact Hwf|].
      set (t := {| rows_ := read_row <$> line :: lines |}).
      assert (Hshape : shape_inv t).
      { intros i row Hi.
        change (rows_ t) with (read_row <$> line :: lines) in Hi.
        rewrite list_lookup_fmap in Hi.
        destruct ((line :: lines) !! i) as [l|] eqn:Hl; [|discriminate].
        injection Hi as <-. rewrite <- Hlines in Hl. exact (Hwf i l Hl). }
      destruct (evaluators_return t Hshape ltac:(discriminate)) as (a & b & Ha & Hb).
      simpl bind. rewrite Ha. simpl bind. rewrite Hb. simpl bind.
      eexists. split; [reflexivity|]. split; reflexivity.
  - right. right. rewrite Hthrow. split; [|reflexivity].
    intros Hwf. apply Hne.
    rewrite list_lookup_fmap in Hk.
    destruct (stream_lines stream !! k) as [line|] eqn:Hline; [|discriminate].
    injection Hk as <-. exact (Hwf k line Hline).
Qed.

(** X10. Which exception leaves [main] on a file that opens: the
    [EmptyTriangle] error exactly when the input has no line, the
    [InvalidShape] error exactly when some line does not yield its number
    of values.  A run that returns from [main] has read an input with a
    line and with [k] values on every line [k], and it returns status 0
    with nothing on the error stream. *)
Theorem main_outcome (stream : string) :
  (main (Some stream) = Throw EmptyTriangle <-> stream_lines stream = [])
  /\ (main (Some stream) = Throw InvalidShape <-> ~ lines_well_formed stream)
  /\ (forall e : exit, main (Some stream) = Return e ->
        status e = 0 /\ cerr e = EmptyString
        /\ stream_lines stream <> [] /\ lines_well_formed stream).
Proof.
  pose proof errors_differ as Hdiff.
  assert (Hnil : stream_lines stream = [] -> lines_well_formed stream).
  { intros Hl k line Hk. rewrite Hl in Hk. discriminate. }
  destruct (main_cases stream)
    as [[Hl Hm]|[(Hl & Hwf & e & Hm & Hs & Hc)|[Hwf Hm]]]; rewrite Hm.
  - split; [split; auto|].
    split; [split; [intros H; exfalso; apply Hdiff; symmetry; exact (Throw_inj _ _ H)
                   | intros Hwf; exfalso; auto]|].
    intros e He. discriminate.
  - split; [split; [discriminate | intros; contradiction]|].
    split; [split; [discriminate | intros; contradiction]|].
    intros e' He'. injection He' as <-. auto.
  - split; [split; [intros H; exfalso; apply Hdiff; exact (Throw_inj _ _ H)
                   | intros Hl; exfalso; auto]|].
    split; [split; auto|].
    intros e He. discriminate.
Qed.

(** ** Reading back the text of a Triangle *)

Lemma read_digits_no_digit (rest : string) (acc : Z) :
  no_leading_digit rest = true -> read_digits rest acc = (acc, rest).
Proof.
  destruct rest as [|c rest]; [reflexivity|]. simpl.
  destruct (isdigit c); [discriminate | reflexivity].
Qed.

Ltac read_one_digit :=
  match goal with
  | |- context [read_digits (String ?c ?s) ?acc] =>
      change (read_digits (String c s) acc)
        with (read_digits s (10 * acc + digit_value c));
      let v := eval vm_compute in (digit_value c) in
      change (digit_value c) with v
  end.

Lemma read_digits_uint_acc (d : Decimal.uint) (p : positive) (rest : string) :
  read_digits (NilEmpty.string_of_uint d ++ rest) (Zpos p)
  = read_digits rest (Zpos (Pos.of_uint_acc d p)).
Proof.
  revert p. induction d as [|d IH|d IH|d IH|d IH|d IH|d IH|d IH|d IH|d IH|d IH];
    intros p; [reflexivity|..];
    simpl NilEmpty.string_of_uint; simpl String.append; read_one_digit;
    simpl Pos.of_uint_acc; rewrite <- IH; f_equal; lia.
Qed.

Lemma read_digits_uint (d : Decimal.uint) (rest : string) :
  read_digits (NilEmpty.string_of_uint d ++ rest) 0
  = read_digits rest (Z.of_N (Pos.of_uint d)).
Proof.
  induction d as [|d IH|d IH|d IH|d IH|d IH|d IH|d IH|d IH|d IH|d IH];
    [reflexivity | exact IH |..];
    simpl NilEmpty.string_of_uint; simpl String.append; read_one_digit;
    simpl Pos.of_uint; simpl Z.of_N; rewrite <- read_digits_uint_acc; reflexivity.
Qed.

Lemma uint_leading_digit (d : Decimal.uint) (rest : string) :
  d <> Decimal.Nil ->
  exists (c : ascii) (s' : string),
    (NilEmpty.string_of_uint d ++ rest)%string = String c s'
    /\ isdigit c = true /\ isspace c = false
    /\ Ascii.eqb c "-" = false /\ Ascii.eqb c "+" = false.
Proof.
  intros Hd. destruct d; [contradiction|..]; simpl; eexists _, _;
    (split; [reflexivity|]); repeat split.
Qed.

Lemma extract_digits_uint (negative : bool) (d : Decimal.uint) (rest : string) :
  d <> Decimal.Nil ->
  no_leading_digit rest = true ->
  in_int_range (if negative then - Z.of_N (Pos.of_uint d) else Z.of_N (Pos.of_uint d)) ->
  extract_digits negative (NilEmpty.string_of_uint d ++ rest)
  = Some (if negative then - Z.of_N (Pos.of_uint d) else Z.of_N (Pos.of_uint d), rest).
Proof.
  intros Hd Hrest Hrange.
  destruct (uint_leading_digit d rest Hd) as (c & s' & Hs & Hc & _).
  unfold extract_digits. rewrite Hs, Hc, <- Hs.
  rewrite read_digits_uint, read_digits_no_digit by assumption.
  unfold in_int_range in Hrange.
  destruct (Z.leb_spec INT_MIN
              (if negative then - Z.of_N (Pos.of_uint d) else Z.of_N (Pos.of_uint d)));
    [|lia].
  destruct (Z.leb_spec
              (if negative then - Z.of_N (Pos.of_uint d) else Z.of_N (Pos.of_uint d))
              INT_MAX); [reflexivity | lia].
Qed.

Lemma skipws_no_space (c : ascii) (s : string) :
  isspace c = false -> skipws (String c s) = String c s.
Proof. intros Hc. simpl. rewrite Hc. reflexivity. Qed.

(** An [int] written in decimal is read back, whatever follows it that
    does not start with a digit. *)
Lemma extract_int_show_int (v : Z) (rest : string) :
  in_int_range v ->
  no_leading_digit rest = true ->
  extract_int (show_int v ++ rest) = Some (v, rest).
Proof.
  intros Hrange Hrest. rewrite extract_int_sign. unfold show_int.
  destruct v as [|p|p]; simpl Z.to_int; simpl NilZero.string_of_int.
  - change (NilZero.string_of_uint Decimal.zero)
      with (NilEmpty.string_of_uint (Decimal.D0 Decimal.Nil)).
    change (skipws (NilEmpty.string_of_uint (Decimal.D0 Decimal.Nil) ++ rest))
      with (NilEmpty.string_of_uint (Decimal.D0 Decimal.Nil) ++ rest)%string.
    apply (extract_digits_uint false (Decimal.D0 Decimal.Nil) rest);
      [discriminate | assumption | exact Hrange].
  - pose proof (Unsigned.to_uint_nonnil p) as Hnil.
    pose proof (Unsigned.of_to p) as Hof.
    assert (Hshow : NilZero.string_of_uint (Pos.to_uint p)
                    = NilEmpty.string_of_uint (Pos.to_uint p)).
    { destruct (Pos.to_uint p); [contradiction|..]; reflexivity. }
    rewrite Hshow.
    destruct (uint_leading_digit (Pos.to_uint p) rest Hnil)
      as (c & s' & Hs & _ & Hspace & Hminus & Hplus).
    rewrite Hs, (skipws_no_space c s' Hspace), Hminus, Hplus, <- Hs.
    rewrite (extract_digits_uint false (Pos.to_uint p) rest Hnil Hrest);
      rewrite Hof; [reflexivity | exact Hrange].
  - pose proof (Unsigned.to_uint_nonnil p) as Hnil.
    pose proof (Unsigned.of_to p) as Hof.
    assert (Hshow : NilZero.string_of_uint (Pos.to_uint p)
                    = NilEmpty.string_of_uint (Pos.to_uint p)).
    { destruct (Pos.to_uint p); [contradiction|..]; reflexivity. }
    rewrite Hshow.
    change (skipws (String "-" (NilEmpty.string_of_uint (Pos.to_uint p)) ++ rest))
      with (String "-" (NilEmpty.string_of_uint (Pos.to_uint p) ++ rest)).
    change (Ascii.eqb "-" "-") with true. cbv iota.
    rewrite (extract_digits_uint true (Pos.to_uint p) rest Hnil Hrest);
      rewrite Hof; [reflexivity | exact Hrange].
Qed.

Lemma extract_int_space (s : string) :
  extract_int (String " " s) = extract_int s.
Proof. rewrite !extract_int_sign. reflexivity. Qed.

Lemma read_values_space (fuel : nat) (s : string) (row : Row) :
  read_values (S fuel) (String " " s) row = read_values (S fuel) s row.
Proof. simpl. rewrite extract_int_space. reflexivity. Qed.

Lemma string_app_nil (s : string) : (s ++ EmptyString)%string = s.
Proof. induction s as [|a s IH]; simpl; [reflexivity | rewrite IH; reflexivity]. Qed.

Lemma read_values_render (row : Row) (fuel : nat) (acc : Row) :
  Forall in_int_range row ->
  (String.length (render_row row) <= fuel)%nat ->
  read_values fuel (render_row row) acc = acc ++ row.
Proof.
  revert fuel acc. induction row as [|v row IH]; intros fuel acc Hrange Hfuel.
  - rewrite app_nil_r. destruct fuel; reflexivity.
  - apply Forall_cons in Hrange as [Hv Hrow].
    destruct row as [|v2 row].
    + change (render_row [v]) with (show_int v) in *.
      pose proof (extract_int_show_int v EmptyString Hv eq_refl) as Hx.
      rewrite string_app_nil in Hx.
      pose proof (extract_int_shorter _ _ _ Hx) as Hshort.
      destruct fuel as [|fuel]; [lia|]. simpl. rewrite Hx.
      destruct fuel; reflexivity.
    + change (render_row (v :: v2 :: row))
        with (show_int v ++ String " " (render_row (v2 :: row)))%string in *.
      pose proof (extract_int_show_int v (String " " (render_row (v2 :: row)))
                    Hv eq_refl) as Hx.
      pose proof (extract_int_shorter _ _ _ Hx) as Hshort.
      change (String.length (String " " (render_row (v2 :: row))))
        with (S (String.length (render_row (v2 :: row)))) in Hshort.
      destruct fuel as [|fuel]; [lia|].
      change (read_values (S fuel)
                (show_int v ++ String " " (render_row (v2 :: row))) acc)
        with (match extract_int (show_int v ++ String " " (render_row (v2 :: row))) with
              | Some (value, rest) => read_values fuel rest (acc ++ [value])
              | None => acc
              end).
      rewrite Hx.
      destruct fuel as [|fuel]; [lia|].
      rewrite read_values_space, IH; [|exact Hrow | lia].
      rewrite <- app_assoc. reflexivity.
Qed.

Lemma read_row_render_row (row : Row) :
  Forall in_int_range row -> read_row (render_row row) = row.
Proof.
  intros Hrange. unfold read_row.
  rewrite read_values_render; [reflexivity | exact Hrange | reflexivity].
Qed.

Lemma newline_free_app (a b : string) :
  newline_free (a ++ b) = newline_free a && newline_free b.
Proof.
  induction a as [|c a IH]; simpl; [reflexivity|].
  rewrite IH, andb_assoc. reflexivity.
Qed.

Lemma newline_free_uint (d : Decimal.uint) :
  newline_free (NilEmpty.string_of_uint d) = true.
Proof. induction d; simpl; auto. Qed.

Lemma newline_free_show_int (v : Z) : newline_free (show_int v) = true.
Proof.
  assert (Hzero : forall d, newline_free (NilZero.string_of_uint d) = true).
  { intros d. destruct d; [reflexivity|..];
      match goal with
      | |- newline_free (NilZero.string_of_uint ?d) = true =>
          exact (newline_free_uint d)
      end. }
  unfold show_int. destruct v; simpl; auto.
Qed.

Lemma newline_free_render_row (row : Row) : newline_free (render_row row) = true.
Proof.
  induction row as [|v row IH]; [reflexivity|].
  destruct row as [|v2 row]; [apply newline_free_show_int|].
  change (render_row (v :: v2 :: row))
    with (show_int v ++ String " " (render_row (v2 :: row)))%string.
  rewrite newline_free_app, newline_free_show_int.
  change (newline_free (String " " (render_row (v2 :: row))))
    with (newline_free (render_row (v2 :: row))).
  exact IH.
Qed.

Lemma stream_lines_line (line rest : string) :
  newline_free line = true ->
  stream_lines (line ++ endl ++ rest) = line :: stream_lines rest.
Proof.
  induction line as [|c line IH]; intros Hfree; [reflexivity|].
  simpl in Hfree. apply andb_true_iff in Hfree as [Hc Hline].
  simpl. destruct (Ascii.eqb c newline); [discriminate|].
  change (String newline rest) with (endl ++ rest)%string.
  rewrite (IH Hline). reflexivity.
Qed.

Lemma stream_lines_render (rs : list Row) :
  stream_lines (render_rows rs) = render_row <$> rs.
Proof.
  induction rs as [|row rs IH]; [reflexivity|].
  change (render_rows (row :: rs))
    with (render_row row ++ endl ++ render_rows rs)%string.
  rewrite stream_lines_line by apply newline_free_render_row.
  rewrite IH. reflexivity.
Qed.

Lemma entries_within_int (t : Triangle) :
  entries_within INT_MAX t = true -> entries_int t.
Proof.
  unfold entries_within, entries_int. intros Hall row v Hrow Hv.
  rewrite forallb_forall in Hall.
  apply list_elem_of_In, Hall in Hrow. rewrite forallb_forall in Hrow.
  apply list_elem_of_In, Hrow in Hv.
  unfold in_int_range, INT_MIN, INT_MAX in *. lia.
Qed.

(** X11. The text of a Triangle parses to that Triangle: when the
    Triangle has the class invariant and its entries are [int]s, the input
    with one line for each row, the entries written in decimal with a space
    between them, is parsed to the Triangle itself. *)
Theorem parse_triangle_render (t : Triangle) :
  shape_inv t -> entries_int t ->
  parse_triangle (render t) = Return t.
Proof.
  intros Hshape Hint. rewrite parse_triangle_lines. unfold render.
  rewrite stream_lines_render, <- list_fmap_compose.
  assert (Hrows : (read_row ∘ render_row) <$> rows_ t = rows_ t).
  { rewrite <- (list_fmap_id (rows_ t)) at 2.
    apply list_fmap_ext. intros i row Hrow. simpl.
    apply read_row_render_row. apply Forall_forall. intros v Hv.
    apply (Hint row v); [eapply list_elem_of_lookup_2; eassumption | exact Hv]. }
  rewrite Hrows, append_rows_accepts.
  - destruct t; reflexivity.
  - intros k row Hk. exact (Hshape k row Hk).
Qed.

Lemma parse_triangle_render_witness :
  shape_inv sample /\ entries_int sample
  /\ render sample = sample_text
  /\ parse_triangle (render sample) = Return sample.
Proof.
  assert (Hshape : shape_inv sample) by (apply shape_ok_inv; reflexivity).
  assert (Hint : entries_int sample) by (apply entries_within_int; reflexivity).
  split; [exact Hshape|]. split; [exact Hint|]. split; [reflexivity|].
  exact (parse_triangle_render sample Hshape Hint).
Defined.

(** ** The fold and the shape of the Triangle *)

Section fold_structure.
Context {T : Type}.
Variable make_t : Z -> T.
Variable combine_t : Z -> T -> T -> T.

(** On a Triangle with a row, [fold_triangle] returns the only entry the
    accumulator of the first row has. *)
Lemma fold_triangle_accum (t : Triangle) :
  shape_inv t -> height t <> 0%nat ->
  exists x : T,
    fold_triangle make_t combine_t t = Return x
    /\ accum_from make_t combine_t (rows_ t) = [x].
Proof.
  intros Hshape Hheight.
  destruct (fold_triangle_returns make_t combine_t t Hshape Hheight)
    as (bottom & uppers & x & Hrev & Hacc & Hfold & _).
  exists x. split; [exact Hfold|].
  rewrite <- (fresh_rows_accum_from _ _ (rows_ t) bottom uppers Hrev). exact Hacc.
Qed.

Lemma fresh_row_but_last (row : Row) (old : list T) :
  length old = S (length row) ->
  fresh_row combine_t (but_last row) (but_last old)
  = but_last (fresh_row combine_t row old).
Proof.
  intros Hlen. destruct row as [|v0 row0] eqn:Hrow.
  { destruct old as [|l [|r old]]; simpl in Hlen; try lia. reflexivity. }
  rewrite <- Hrow in *. assert (Hn : (1 <= length row)%nat) by (rewrite Hrow; simpl; lia).
  clear Hrow v0 row0.
  apply list_eq. intros i. unfold but_last.
  rewrite fresh_row_lookup by (rewrite !length_take; lia).
  rewrite fresh_row_length by lia.
  destruct (decide (i < length row - 1)%nat) as [Hi|Hi].
  - rewrite lookup_take_lt, fresh_row_lookup by lia.
    unfold recurrence_entry.
    rewrite !lookup_take_lt by lia. reflexivity.
  - rewrite (lookup_take_ge (fresh_row combine_t row old)) by lia.
    unfold recurrence_entry. rewrite (lookup_take_ge row) by lia. reflexivity.
Qed.

Lemma accum_from_but_last (rs : list Row) (k : nat) :
  rs <> [] -> tapers (S k) rs ->
  accum_from make_t combine_t (but_last <$> rs)
  = but_last (accum_from make_t combine_t rs).
Proof.
  revert k. induction rs as [|row rs IH]; intros k Hne Hshape; [contradiction|].
  destruct rs as [|row2 rs].
  - simpl. unfold but_last. rewrite fmap_take, length_fmap. reflexivity.
  - assert (Hshape' : tapers (S (S k)) (row2 :: rs)) by (eapply tapers_tail; eassumption).
    pose proof (Hshape 0%nat row eq_refl) as Hrow. rewrite Nat.add_0_r in Hrow.
    pose proof (accum_from_length make_t combine_t (row2 :: rs) (S (S k))
                  ltac:(discriminate) Hshape') as Hlen.
    change (accum_from make_t combine_t (but_last <$> row :: row2 :: rs))
      with (fresh_row combine_t (but_last row)
              (accum_from make_t combine_t (but_last <$> row2 :: rs))).
    rewrite (IH (S k)) by (discriminate || assumption).
    change (accum_from make_t combine_t (row :: row2 :: rs))
      with (fresh_row combine_t row (accum_from make_t combine_t (row2 :: rs))).
    apply fresh_row_but_last. lia.
Qed.

Lemma accum_from_tail (rs : list Row) (k : nat) :
  rs <> [] -> tapers (S k) rs ->
  accum_from make_t combine_t (tail <$> rs)
  = tail (accum_from make_t combine_t rs).
Proof.
  revert k. induction rs as [|row rs IH]; intros k Hne Hshape; [contradiction|].
  destruct rs as [|row2 rs].
  - simpl. apply fmap_tail.
  - assert (Hshape' : tapers (S (S k)) (row2 :: rs)) by (eapply tapers_tail; eassumption).
    pose proof (Hshape 0%nat row eq_refl) as Hrow. rewrite Nat.add_0_r in Hrow.
    pose proof (accum_from_length make_t combine_t (row2 :: rs) (S (S k))
                  ltac:(discriminate) Hshape') as Hlen.
    change (accum_from make_t combine_t (tail <$> row :: row2 :: rs))
      with (fresh_row combine_t (tail row)
              (accum_from make_t combine_t (tail <$> row2 :: rs))).
    rewrite (IH (S k)) by (discriminate || assumption).
    change (accum_from make_t combine_t (row :: row2 :: rs))
      with (fresh_row combine_t row (accum_from make_t combine_t (row2 :: rs))).
    destruct row as [|v row]; [discriminate|].
    destruct (accum_from make_t combine_t (row2 :: rs)) as [|l [|r old]];
      simpl in Hlen; try lia.
    reflexivity.
Qed.

Lemma tapers_but_last (rs : list Row) (k : nat) :
  tapers (S k) rs -> tapers k (but_last <$> rs).
Proof.
  intros Hshape i row Hi. rewrite list_lookup_fmap in Hi.
  destruct (rs !! i) as [r|] eqn:Hr; [|discriminate]. injection Hi as <-.
  unfold but_last. rewrite length_take, (Hshape i r Hr). lia.
Qed.

Lemma tapers_tails (rs : list Row) (k : nat) :
  tapers (S k) rs -> tapers k (tail <$> rs).
Proof.
  intros Hshape i row Hi. rewrite list_lookup_fmap in Hi.
  destruct (rs !! i) as [r|] eqn:Hr; [|discriminate]. injection Hi as <-.
  pose proof (Hshape i r Hr) as Hlen. destruct r; simpl in *; lia.
Qed.

(** The fold of a Triangle of two rows or more is the combination of its
    apex with the folds of the two Triangles under the apex. *)
Lemma fold_triangle_parts (t : Triangle) :
  shape_inv t -> (2 <= height t)%nat ->
  shape_inv (left_part t) /\ shape_inv (right_part t)
  /\ exists (apex : Z) (l r : T),
       at_ t 0 0 = Return apex
       /\ fold_triangle make_t combine_t (left_part t) = Return l
       /\ fold_triangle make_t combine_t (right_part t) = Return r
       /\ fold_triangle make_t combine_t t = Return (combine_t apex l r).
Proof.
  intros Hshape Hheight.
  destruct t as [rs]. unfold height, left_part, right_part, at_ in *. simpl in *.
  destruct rs as [|row [|row2 rs]]; simpl in Hheight; try lia.
  pose proof (Hshape 0%nat row eq_refl) as Hrow.
  destruct row as [|apex [|? ?]]; try discriminate. clear Hrow.
  assert (Hbelow : tapers 1 (row2 :: rs)).
  { apply (tapers_tail 0 [apex]). exact Hshape. }
  assert (Hleft : shape_inv {| rows_ := but_last <$> row2 :: rs |}).
  { exact (tapers_but_last _ 0 Hbelow). }
  assert (Hright : shape_inv {| rows_ := tail <$> row2 :: rs |}).
  { exact (tapers_tails _ 0 Hbelow). }
  split; [exact Hleft|]. split; [exact Hright|].
  destruct (fold_triangle_accum {| rows_ := [apex] :: row2 :: rs |} Hshape
              ltac:(discriminate)) as (x & Hx & Hxa).
  destruct (fold_triangle_accum _ Hleft ltac:(discriminate)) as (l & Hl & Hla).
  destruct (fold_triangle_accum _ Hright ltac:(discriminate)) as (r & Hr & Hra).
  exists apex, l, r. split; [reflexivity|]. split; [exact Hl|]. split; [exact Hr|].
  rewrite Hx. f_equal.
  pose proof (accum_from_length make_t combine_t (row2 :: rs) 1
                ltac:(discriminate) Hbelow) as Hlen.
  change (accum_from make_t combine_t (but_last <$> row2 :: rs) = [l]) in Hla.
  change (accum_from make_t combine_t (tail <$> row2 :: rs) = [r]) in Hra.
  change (accum_from make_t combine_t ([apex] :: row2 :: rs) = [x]) in Hxa.
  rewrite (accum_from_but_last (row2 :: rs) 0 ltac:(discriminate) Hbelow) in Hla.
  rewrite (accum_from_tail (row2 :: rs) 0 ltac:(discriminate) Hbelow) in Hra.
  change (accum_from make_t combine_t ([apex] :: row2 :: rs))
    with (fresh_row combine_t [apex] (accum_from make_t combine_t (row2 :: rs))) in Hxa.
  destruct (accum_from make_t combine_t (row2 :: rs)) as [|a0 [|a1 [|a2 old]]];
    simpl in Hlen; try lia.
  unfold but_last in Hla. simpl in Hla, Hra, Hxa. congruence.
Qed.
End fold_structure.

(** X12. [fold_triangle] follows the structure of the Triangle: on a
    Triangle of two rows or more it returns [combine] of the apex and of
    what it returns on the two Triangles under the apex, the one without
    the last entry of each row and the one without the first. *)
Theorem fold_triangle_recursive {T : Type}
    (make_t : Z -> T) (combine_t : Z -> T -> T -> T) (t : Triangle) :
  shape_inv t -> (2 <= height t)%nat ->
  shape_inv (left_part t) /\ shape_inv (right_part t)
  /\ exists (apex : Z) (l r : T),
       at_ t 0 0 = Return apex
       /\ fold_triangle make_t combine_t (left_part t) = Return l
       /\ fold_triangle make_t combine_t (right_part t) = Return r
       /\ fold_triangle make_t combine_t t = Return (combine_t apex l r).
Proof. exact (fold_triangle_parts make_t combine_t t). Qed.

Lemma fold_triangle_recursive_witness :
  shape_inv sample /\ (2 <= height sample)%nat
  /\ exists (apex : Z) (l r : list Z),
       at_ sample 0 0 = Return apex
       /\ fold_triangle (fun v => [v]) (fun v l r => v :: l ++ r) (left_part sample)
          = Return l
       /\ fold_triangle (fun v => [v]) (fun v l r => v :: l ++ r) (right_part sample)
          = Return r
       /\ fold_triangle (fun v => [v]) (fun v l r => v :: l ++ r) sample
          = Return (apex :: l ++ r).
Proof.
  assert (Hshape : shape_inv sample) by (apply shape_ok_inv; reflexivity).
  assert (Hheight : (2 <= height sample)%nat) by (unfold height; simpl; lia).
  split; [exact Hshape|]. split; [exact Hheight|].
  exact (proj2 (proj2 (fold_triangle_recursive (fun v => [v])
                         (fun v l r => v :: l ++ r) sample Hshape Hheight))).
Defined.

Section fold_mirror.
Context {T : Type}.
Variable make_t : Z -> T.
Variable combine_t : Z -> T -> T -> T.

Lemma fresh_row_reverse (row : Row) (old : list T) :
  length old = S (length row) ->
  fresh_row combine_t (reverse row) (reverse old)
  = reverse (fresh_row (fun v l r => combine_t v r l) row old).
Proof.
  intros Hlen. apply list_eq. intros i.
  rewrite fresh_row_lookup by (rewrite !length_reverse; lia).
  destruct (decide (i < length row)%nat) as [Hi|Hi].
  - rewrite (reverse_lookup (fresh_row _ row old))
      by (rewrite fresh_row_length; lia).
    rewrite fresh_row_length, fresh_row_lookup by lia.
    unfold recurrence_entry.
    rewrite !reverse_lookup by lia. rewrite Hlen.
    replace (S (length row) - S i)%nat with (S (length row - S i)) by lia.
    replace (S (length row) - S (S i))%nat with (length row - S i)%nat by lia.
    destruct (row !! (length row - S i)%nat); [|reflexivity]. simpl.
    destruct (old !! S (length row - S i)), (old !! (length row - S i)%nat);
      reflexivity.
  - rewrite (lookup_ge_None_2 (reverse (fresh_row _ row old)))
      by (rewrite length_reverse, fresh_row_length; lia).
    unfold recurrence_entry.
    rewrite (lookup_ge_None_2 (reverse row)) by (rewrite length_reverse; lia).
    reflexivity.
Qed.

Lemma accum_from_reverse (rs : list Row) (k : nat) :
  rs <> [] -> tapers k rs ->
  accum_from make_t combine_t (reverse <$> rs)
  = reverse (accum_from make_t (fun v l r => combine_t v r l) rs).
Proof.
  revert k. induction rs as [|row rs IH]; intros k Hne Hshape; [contradiction|].
  destruct rs as [|row2 rs].
  - simpl. apply fmap_reverse.
  - assert (Hshape' : tapers (S k) (row2 :: rs)) by (eapply tapers_tail; eassumption).
    pose proof (Hshape 0%nat row eq_refl) as Hrow. rewrite Nat.add_0_r in Hrow.
    pose proof (accum_from_length make_t (fun v l r => combine_t v r l)
                  (row2 :: rs) (S k) ltac:(discriminate) Hshape') as Hlen.
    change (accum_from make_t combine_t (reverse <$> row :: row2 :: rs))
      with (fresh_row combine_t (reverse row)
              (accum_from make_t combine_t (reverse <$> row2 :: rs))).
    rewrite (IH (S k)) by (discriminate || assumption).
    change (accum_from make_t (fun v l r => combine_t v r l) (row :: row2 :: rs))
      with (fresh_row (fun v l r => combine_t v r l) row
              (accum_from make_t (fun v l r => combine_t v r l) (row2 :: rs))).
    apply fresh_row_reverse. lia.
Qed.

Lemma mirror_shape (t : Triangle) : shape_inv t -> shape_inv (mirror t).
Proof.
  intros Hshape i row Hi. simpl in Hi. rewrite list_lookup_fmap in Hi.
  destruct (rows_ t !! i) as [r|] eqn:Hr; [|discriminate]. injection Hi as <-.
  rewrite length_reverse. exact (Hshape i r Hr).
Qed.

(** Folding the mirrored Triangle is folding the Triangle with the two
    lower arguments of the combining function exchanged. *)
Lemma fold_triangle_mirror (t : Triangle) :
  shape_inv t ->
  fold_triangle make_t combine_t (mirror t)
  = fold_triangle make_t (fun v l r => combine_t v r l) t.
Proof.
  intros Hshape.
  destruct (decide (height t = 0%nat)) as [Hzero|Hheight].
  - unfold fold_triangle, height, mirror in *. simpl.
    rewrite length_fmap, Hzero. reflexivity.
  - assert (Hheight' : height (mirror t) <> 0%nat).
    { unfold height, mirror in *. simpl. rewrite length_fmap. exact Hheight. }
    destruct (fold_triangle_accum make_t combine_t (mirror t)
                (mirror_shape t Hshape) Hheight') as (x & Hx & Hxa).
    destruct (fold_triangle_accum make_t (fun v l r => combine_t v r l) t
                Hshape Hheight) as (y & Hy & Hya).
    rewrite Hx, Hy. f_equal.
    change (accum_from make_t combine_t (reverse <$> rows_ t) = [x]) in Hxa.
    rewrite (accum_from_reverse (rows_ t) 0) in Hxa.
    + rewrite Hya in Hxa. change ([y] = [x]) in Hxa. congruence.
    + intros Hnil. unfold height in Hheight. rewrite Hnil in Hheight. contradiction.
    + exact Hshape.
Qed.
End fold_mirror.

(** X13. The unconstrained maximum does not tell left from right:
    [max_path] returns the same on a Triangle and on its mirror image, the
    Triangle with every row reversed. *)
Theorem max_path_mirror (t : Triangle) :
  shape_inv t -> max_path (mirror t) = max_path t.
Proof.
  intros Hshape. unfold max_path. rewrite fold_triangle_mirror by assumption.
  apply fold_triangle_ext; [reflexivity|].
  intros v l r. rewrite !std_max_max, Z.max_comm. reflexivity.
Qed.

Lemma max_path_mirror_witness :
  shape_inv sample
  /\ mirror sample = {| rows_ := [[3]; [4; 7]; [6; 4; 2]; [3; 9; 5; 8]] |}
  /\ max_path (mirror sample) = max_path sample.
Proof.
  assert (Hshape : shape_inv sample) by (apply shape_ok_inv; reflexivity).
  split; [exact Hshape|]. split; [reflexivity|].
  exact (max_path_mirror sample Hshape).
Defined.

(** ** Whitespace around the numbers of a line *)

Lemma isspace_not_digit (c : ascii) : isspace c = true -> isdigit c = false.
Proof.
  unfold isspace, isdigit. intros H.
  apply orb_true_iff in H as [H|H].
  - apply Nat.eqb_eq in H. rewrite H. reflexivity.
  - apply andb_true_iff in H as [_ H]. apply Nat.leb_le in H.
    destruct (Nat.leb_spec 48 (nat_of_ascii c)); [lia | reflexivity].
Qed.

Lemma skipws_blank (ws : string) : blank ws = true -> skipws ws = EmptyString.
Proof.
  induction ws as [|c ws IH]; [reflexivity|]. simpl.
  intros H. apply andb_true_iff in H as [-> Hws]. exact (IH Hws).
Qed.

Lemma skipws_blank_app (ws s : string) :
  blank ws = true -> skipws (ws ++ s) = skipws s.
Proof.
  induction ws as [|c ws IH]; [reflexivity|]. simpl.
  intros H. apply andb_true_iff in H as [-> Hws]. exact (IH Hws).
Qed.

Lemma skipws_app_blank (s ws : string) :
  blank ws = true ->
  skipws (s ++ ws) =
    match skipws s with
    | EmptyString => EmptyString
    | String a u => String a (u ++ ws)
    end.
Proof.
  intros Hws. induction s as [|c s IH]; simpl.
  - apply skipws_blank. exact Hws.
  - destruct (isspace c); [exact IH | reflexivity].
Qed.

Lemma put_back_nil (r : option (Z * string)) : put_back EmptyString r = r.
Proof. destruct r as [[v rest]|]; [|reflexivity]. simpl. rewrite string_app_nil. reflexivity. Qed.

Lemma extract_digits_app_blank (negative : bool) (u ws : string) :
  blank ws = true ->
  extract_digits negative (u ++ ws) = put_back ws (extract_digits negative u).
Proof.
  intros Hws. destruct ws as [|c ws].
  - rewrite string_app_nil, put_back_nil. reflexivity.
  - simpl in Hws. apply andb_true_iff in Hws as [Hc _].
    apply extract_digits_app_stop. apply isspace_not_digit. exact Hc.
Qed.

(** Whitespace after a text changes no extraction from it. *)
Lemma extract_int_app_blank (s ws : string) :
  blank ws = true ->
  extract_int (s ++ ws) = put_back ws (extract_int s).
Proof.
  intros Hws. rewrite !extract_int_sign, skipws_app_blank by assumption.
  destruct (skipws s) as [|a u]; [reflexivity|].
  destruct (Ascii.eqb a "-"); [apply extract_digits_app_blank; assumption|].
  destruct (Ascii.eqb a "+"); [apply extract_digits_app_blank; assumption|].
  apply (extract_digits_app_blank false (String a u)). assumption.
Qed.

Lemma read_values_app_blank (ws : string) (fuel fuel' : nat) (s : string) (row : Row) :
  blank ws = true ->
  (String.length (s ++ ws) <= fuel)%nat ->
  (String.length s <= fuel')%nat ->
  read_values fuel (s ++ ws) row = read_values fuel' s row.
Proof.
  intros Hws. revert fuel' s row.
  induction fuel as [|fuel IH]; intros fuel' s row Hfuel Hfuel'.
  - rewrite string_length_app in Hfuel.
    destruct s; [|simpl in Hfuel; lia]. destruct fuel'; reflexivity.
  - simpl. rewrite extract_int_app_blank by assumption.
    destruct (extract_int s) as [[value rest]|] eqn:Hx; simpl.
    + pose proof (extract_int_shorter _ _ _ Hx) as Hshort.
      destruct fuel' as [|fuel']; [lia|]. simpl. rewrite Hx.
      apply IH; [|lia].
      rewrite string_length_app in *. lia.
    + destruct fuel'; simpl; rewrite ?Hx; reflexivity.
Qed.

Lemma read_values_blank_app (ws : string) (fuel fuel' : nat) (s : string) (row : Row) :
  blank ws = true ->
  (String.length (ws ++ s) <= fuel)%nat ->
  (String.length s <= fuel')%nat ->
  read_values fuel (ws ++ s) row = read_values fuel' s row.
Proof.
  intros Hws Hfuel Hfuel'.
  assert (Hx : extract_int (ws ++ s) = extract_int s).
  { rewrite !extract_int_sign, skipws_blank_app by assumption. reflexivity. }
  rewrite string_length_app in Hfuel.
  destruct fuel as [|fuel].
  - destruct s; [|simpl in Hfuel; lia]. destruct fuel'; reflexivity.
  - simpl. rewrite Hx.
    destruct (extract_int s) as [[value rest]|] eqn:Hs.
    + pose proof (extract_int_shorter _ _ _ Hs) as Hshort.
      destruct fuel' as [|fuel']; [lia|]. simpl. rewrite Hs.
      apply read_values_fuel; lia.
    + destruct fuel'; simpl; rewrite ?Hs; reflexivity.
Qed.

(** X14. Whitespace before the first number of a line and after the last
    one is ignored; a carriage return before the newline, as in a file
    with CR LF line ends, is such whitespace. *)
Theorem read_row_trim (ws1 s ws2 : string) :
  blank ws1 = true -> blank ws2 = true ->
  read_row (ws1 ++ s ++ ws2) = read_row s.
Proof.
  intros H1 H2. unfold read_row.
  rewrite (read_values_blank_app ws1 _ (String.length (s ++ ws2)) (s ++ ws2))
    by (assumption || reflexivity).
  apply read_values_app_blank; [assumption | reflexivity | reflexivity].
Qed.

Lemma read_row_trim_witness :
  blank "  "%string = true
  /\ blank (String (ascii_of_nat 13) EmptyString) = true
  /\ read_row ("  " ++ "7 4" ++ String (ascii_of_nat 13) EmptyString)%string
     = read_row "7 4"%string.
Proof.
  split; [reflexivity|]. split; [reflexivity|].
  exact (read_row_trim "  " "7 4" (String (ascii_of_nat 13) EmptyString)
           eq_refl eq_refl).
Defined.

(** ** The parity rule and the apex *)

(** X15. A path may stop where the parity rule lets it go no further: on
    a Triangle with a row, entries that are not negative and no path from
    the apex to the base whose sum exceeds [INT_MAX], [max_odd_even_path]
    returns at least the apex. *)
Theorem max_odd_even_path_at_least_apex (t : Triangle) :
  shape_inv t -> height t <> 0%nat ->
  nonnegative t ->
  (forall cols, is_path t cols = true -> path_sum (rows_ t) cols <= INT_MAX) ->
  exists apex b : Z,
    at_ t 0 0 = Return apex /\ max_odd_even_path t = Return b /\ apex <= b.
Proof.
  intros Hshape Hheight Hnn Hmax.
  pose proof (nonnegative_fit t Hnn Hmax) as Hfit.
  destruct t as [rs].
  destruct rs as [|row rs]; [exfalso; apply Hheight; reflexivity|].
  pose proof (Hshape 0%nat row eq_refl) as Hrow.
  destruct row as [|apex [|? ?]]; try discriminate. clear Hrow.
  destruct (fold_triangle_accum
              (fun i : Z => i)
              (fun i left right : Z =>
                 int_add i (std_max (if is_even left then 0 else left)
                                    (if is_even right then right else 0)))
              {| rows_ := [apex] :: rs |} Hshape Hheight) as (b & Hb & Hba).
  cbn [rows_] in Hba.
  exists apex, b. split; [reflexivity|]. split; [exact Hb|].
  destruct rs as [|row2 rs].
  { cbn in Hba. injection Hba as <-. lia. }
  assert (Hapex : 0 <= apex).
  { apply (Hnn [apex] apex); apply list_elem_of_here. }
  assert (Hshape' : tapers 1 (row2 :: rs)) by (apply (tapers_tail 0 [apex]); exact Hshape).
  assert (Hnn' : forall (row : Row) (v : Z), row ∈ row2 :: rs -> v ∈ row -> 0 <= v).
  { intros r0 v0 Hr0. apply Hnn. apply list_elem_of_further. exact Hr0. }
  assert (Hfit' : sums_fit 1 (row2 :: rs)) by (apply (sums_fit_tail 0 [apex]); exact Hfit).
  destruct (odd_even_below_ideal (row2 :: rs) 1 ltac:(discriminate)
              Hshape' Hnn' Hfit' 0%nat ltac:(lia)) as (o0 & i0 & Ho0 & Hi0 & H0).
  destruct (odd_even_below_ideal (row2 :: rs) 1 ltac:(discriminate)
              Hshape' Hnn' Hfit' 1%nat ltac:(lia)) as (o1 & i1 & Ho1 & Hi1 & H1).
  destruct (ideal_accum_greatest ([apex] :: row2 :: rs) 0 ltac:(discriminate) Hshape)
    as [_ Hall].
  destruct (Hall 0%nat (Nat.le_refl 0)) as (m & Hm & Hgreatest).
  assert (Hrange : in_int_range m).
  { apply (Hfit 0%nat 0%nat m); [lia | unfold height; simpl; lia | exact Hgreatest]. }
  pose proof (accum_from_length (fun i : Z => i)
      (fun i left right : Z =>
         int_add i (std_max (if is_even left then 0 else left)
                            (if is_even right then right else 0)))
      (row2 :: rs) 1 ltac:(discriminate) Hshape') as Hlen_o.
  pose proof (accum_from_length (fun v : Z => v) ideal_combine
      (row2 :: rs) 1 ltac:(discriminate) Hshape') as Hlen_i.
  set (rs' := row2 :: rs) in *.
  change (accum_from (fun v => v) ideal_combine ([apex] :: rs'))
    with (fresh_row ideal_combine [apex] (accum_from (fun v => v) ideal_combine rs')) in Hm.
  match type of Hba with
  | accum_from ?mk ?cb ([apex] :: rs') = _ =>
      change (accum_from mk cb ([apex] :: rs'))
        with (fresh_row cb [apex] (accum_from mk cb rs')) in Hba
  end.
  apply (f_equal (fun l => l !! 0%nat)) in Hba.
  rewrite fresh_row_lookup in Hm by (rewrite Hlen_i; simpl; lia).
  rewrite fresh_row_lookup in Hba by (rewrite Hlen_o; simpl; lia).
  unfold recurrence_entry in Hm, Hba.
  rewrite Hi0, Hi1 in Hm. rewrite Ho0, Ho1 in Hba.
  simpl in Hm, Hba. injection Hm as Hm. injection Hba as Hba.
  unfold int_add, ideal_combine in *. rewrite std_max_max in Hba.
  rewrite wrap_int_id in Hba.
  - destruct (is_even o0), (is_even o1); lia.
  - unfold in_int_range, INT_MIN, INT_MAX in *.
    destruct (is_even o0), (is_even o1); lia.
Qed.

Lemma max_odd_even_path_at_least_apex_witness :
  shape_inv sample /\ height sample <> 0%nat /\ nonnegative sample
  /\ (forall cols, is_path sample cols = true ->
                   path_sum (rows_ sample) cols <= INT_MAX)
  /\ exists apex b : Z,
       at_ sample 0 0 = Return apex /\ max_odd_even_path sample = Return b
       /\ apex <= b.
Proof.
  assert (Hshape : shape_inv sample) by (apply shape_ok_inv; reflexivity).
  assert (Hheight : height sample <> 0%nat) by discriminate.
  assert (Hnn : nonnegative sample) by (apply entries_nonnegative_spec; reflexivity).
  assert (Hmax : forall cols, is_path sample cols = true ->
                              path_sum (rows_ sample) cols <= INT_MAX).
  { intros cols Hpath.
    pose proof (path_sum_bounded 9 (rows_ sample) cols ltac:(lia) eq_refl) as Hsum.
    simpl length in Hsum. unfold INT_MAX. lia. }
  split; [exact Hshape|]. split; [exact Hheight|]. split; [exact Hnn|].
  split; [exact Hmax|].
  exact (max_odd_even_path_at_least_apex sample Hshape Hheight Hnn Hmax).
Defined.

(** ** Numbers that do not fit an [int] *)

Lemma string_app_assoc (a b c : string) :
  ((a ++ b) ++ c)%string = (a ++ b ++ c)%string.
Proof. induction a as [|x a IH]; simpl; [reflexivity | rewrite IH; reflexivity]. Qed.

Lemma extract_digits_uint_check (negative : bool) (d : Decimal.uint) (rest : string) :
  d <> Decimal.Nil ->
  no_leading_digit rest = true ->
  extract_digits negative (NilEmpty.string_of_uint d ++ rest)
  = (let value := if negative then - Z.of_N (Pos.of_uint d)
                  else Z.of_N (Pos.of_uint d) in
     if (INT_MIN <=? value) && (value <=? INT_MAX)
     then Some (value, rest) else None).
Proof.
  intros Hd Hrest.
  destruct (uint_leading_digit d rest Hd) as (c & s' & Hs & Hc & _).
  unfold extract_digits. rewrite Hs, Hc, <- Hs.
  rewrite read_digits_uint, read_digits_no_digit by assumption.
  reflexivity.
Qed.

(** A number written in decimal is read back when it fits an [int], and
    makes the extraction fail when it does not. *)
Lemma extract_int_show_int_check (v : Z) (rest : string) :
  no_leading_digit rest = true ->
  extract_int (show_int v ++ rest)
  = if (INT_MIN <=? v) && (v <=? INT_MAX) then Some (v, rest) else None.
Proof.
  intros Hrest. rewrite extract_int_sign. unfold show_int.
  destruct v as [|p|p]; simpl Z.to_int; simpl NilZero.string_of_int.
  - change (NilZero.string_of_uint Decimal.zero)
      with (NilEmpty.string_of_uint (Decimal.D0 Decimal.Nil)).
    change (skipws (NilEmpty.string_of_uint (Decimal.D0 Decimal.Nil) ++ rest))
      with (NilEmpty.string_of_uint (Decimal.D0 Decimal.Nil) ++ rest)%string.
    exact (extract_digits_uint_check false (Decimal.D0 Decimal.Nil) rest
             ltac:(discriminate) Hrest).
  - pose proof (Unsigned.to_uint_nonnil p) as Hnil.
    pose proof (Unsigned.of_to p) as Hof.
    assert (Hshow : NilZero.string_of_uint (Pos.to_uint p)
                    = NilEmpty.string_of_uint (Pos.to_uint p)).
    { destruct (Pos.to_uint p); [contradiction|..]; reflexivity. }
    rewrite Hshow.
    destruct (uint_leading_digit (Pos.to_uint p) rest Hnil)
      as (c & s' & Hs & _ & Hspace & Hminus & Hplus).
    rewrite Hs, (skipws_no_space c s' Hspace), Hminus, Hplus, <- Hs.
    rewrite (extract_digits_uint_check false (Pos.to_uint p) rest Hnil Hrest), Hof.
    reflexivity.
  - pose proof (Unsigned.to_uint_nonnil p) as Hnil.
    pose proof (Unsigned.of_to p) as Hof.
    assert (Hshow : NilZero.string_of_uint (Pos.to_uint p)
                    = NilEmpty.string_of_uint (Pos.to_uint p)).
    { destruct (Pos.to_uint p); [contradiction|..]; reflexivity. }
    rewrite Hshow.
    change (skipws (String "-" (NilEmpty.string_of_uint (Pos.to_uint p)) ++ rest))
      with (String "-" (NilEmpty.string_of_uint (Pos.to_uint p) ++ rest)).
    change (Ascii.eqb "-" "-") with true. cbv iota.
    rewrite (extract_digits_uint_check true (Pos.to_uint p) rest Hnil Hrest), Hof.
    reflexivity.
Qed.

Lemma extract_int_too_large (v : Z) (rest : string) :
  ~ in_int_range v -> no_leading_digit rest = true ->
  extract_int (show_int v ++ rest) = None.
Proof.
  intros Hrange Hrest. rewrite extract_int_show_int_check by assumption.
  unfold in_int_range in Hrange.
  destruct (Z.leb_spec INT_MIN v); [|reflexivity].
  destruct (Z.leb_spec v INT_MAX); [lia | reflexivity].
Qed.

Lemma render_row_snoc (u : Z) (row : Row) (v : Z) :
  render_row (u :: row ++ [v])
  = (show_int u ++ String " " (render_row (row ++ [v])))%string.
Proof. destruct row; reflexivity. Qed.

Lemma read_values_cut (row : Row) (v : Z) (rest : string) (fuel : nat) (acc : Row) :
  Forall in_int_range row ->
  ~ in_int_range v -> no_leading_digit rest = true ->
  (String.length (render_row (row ++ [v]) ++ rest) <= fuel)%nat ->
  read_values fuel (render_row (row ++ [v]) ++ rest) acc = acc ++ row.
Proof.
  intros Hrow Hv Hrest. revert fuel acc.
  induction row as [|u row IH]; intros fuel acc Hfuel.
  - rewrite app_nil_r. destruct fuel; [reflexivity|].
    change (render_row ([] ++ [v])) with (show_int v). simpl.
    rewrite extract_int_too_large by assumption. reflexivity.
  - apply Forall_cons in Hrow as [Hu Hrow].
    change ((u :: row) ++ [v]) with (u :: row ++ [v]) in *.
    rewrite render_row_snoc, string_app_assoc in *.
    change (String " " (render_row (row ++ [v])) ++ rest)%string
      with (String " " (render_row (row ++ [v]) ++ rest)) in *.
    pose proof (extract_int_show_int u
                  (String " " (render_row (row ++ [v]) ++ rest)) Hu eq_refl) as Hx.
    pose proof (extract_int_shorter _ _ _ Hx) as Hshort.
    change (String.length (String " " (render_row (row ++ [v]) ++ rest)))
      with (S (String.length (render_row (row ++ [v]) ++ rest))) in Hshort.
    destruct fuel as [|fuel]; [lia|].
    change (read_values (S fuel)
              (show_int u ++ String " " (render_row (row ++ [v]) ++ rest)) acc)
      with (match extract_int
                    (show_int u ++ String " " (render_row (row ++ [v]) ++ rest)) with
            | Some (value, rest') => read_values fuel rest' (acc ++ [value])
            | None => acc
            end).
    rewrite Hx.
    destruct fuel as [|fuel]; [lia|].
    rewrite read_values_space, (IH Hrow) by lia.
    rewrite <- app_assoc. reflexivity.
Qed.

(** X16. A number that does not fit an [int] is neither wrapped nor
    clamped into the row: the row ends before it.  Of a line that starts
    with the text of a row whose last entry is out of range, only the
    entries before that one are read. *)
Theorem read_row_cut_at_overflow (row : Row) (v : Z) (rest : string) :
  Forall in_int_range row ->
  ~ in_int_range v ->
  no_leading_digit rest = true ->
  read_row (render_row (row ++ [v]) ++ rest) = row.
Proof.
  intros Hrow Hv Hrest. unfold read_row.
  rewrite read_values_cut; [reflexivity | assumption.. | reflexivity].
Qed.

Lemma read_row_cut_at_overflow_witness :
  Forall in_int_range [1; 2]
  /\ ~ in_int_range 2147483648
  /\ no_leading_digit " 4"%string = true
  /\ read_row (render_row ([1; 2] ++ [2147483648]) ++ " 4")%string = [1; 2].
Proof.
  assert (Hrow : Forall in_int_range [1; 2]).
  { repeat constructor; unfold INT_MIN, INT_MAX; lia. }
  assert (Hv : ~ in_int_range 2147483648).
  { unfold in_int_range, INT_MIN, INT_MAX. lia. }
  split; [exact Hrow|]. split; [exact Hv|]. split; [reflexivity|].
  exact (read_row_cut_at_overflow [1; 2] 2147483648 " 4" Hrow Hv eq_refl).
Defined.
